(** * Palette extraction and layout solving of the image-wrap editor

    Shallow embedding of the deterministic computation layer of
    [src/App.tsx] (colour sampling, quantisation, the Morandi transform,
    palette selection) and of the canvas component in
    [src/unnamed/part_000] (seeded mesh shuffle, layout engine, viewport
    scaling, shadow geometry).

    Numbers.  JavaScript numbers are IEEE-754 doubles.  The algebraic
    computations (layout, viewport scale, colour conversion) are embedded
    over the exact rationals [Q], which keeps them executable; the two
    computations that call [Math.sin] / [Math.cos] are embedded over the
    reals [R].  Rounding error of the double arithmetic is therefore not
    part of the model.  A computation whose JavaScript value would be
    [NaN], an infinity or a signed zero has no counterpart in [Q]: the
    embedded function returns [None] there. *)

From Stdlib Require Import List String Ascii ZArith QArith Qround Qminmax Lia Bool.
From Stdlib Require Lqa Lra.
From Stdlib Require Import Permutation Sorted.
From Stdlib Require DecimalString HexadecimalString.
From Stdlib Require Import Reals.
Import ListNotations.

Local Open Scope string_scope.

(** ** JavaScript helpers shared by the components *)

Module Js.

(** [s.split(sep)] for a one-character separator: the pieces between the
    separators, in order; a string without separator is returned whole. *)
Fixpoint split (sep : ascii) (s : string) : list string :=
  match s with
  | EmptyString => [EmptyString]
  | String c rest =>
      if Ascii.eqb c sep then EmptyString :: split sep rest
      else match split sep rest with
           | [] => [String c EmptyString]
           | piece :: pieces => String c piece :: pieces
           end
  end.

(** [!image] for [image : string | null]: [null] and the empty string are
    falsy. *)
Definition falsy (image : option string) : bool :=
  match image with
  | None => true
  | Some s => String.eqb s ""
  end.

(** A reading of [Number(x)] on unsigned decimal digit strings, used to
    run the layout engine on the ratio strings of the application
    ([RATIOS] in [src/unnamed/part_001]).  [None] stands for [undefined]
    on the argument side and for a non-numeric result on the result
    side. *)
Definition NumberDec (x : option string) : option Q :=
  match x with
  | None => None
  | Some s =>
      match DecimalString.NilEmpty.uint_of_string s with
      | Some u => Some (inject_Z (Z.of_N (N.of_uint u)))
      | None => None
      end
  end.

End Js.

(** ** Layout engine and viewport scaling ([src/unnamed/part_000]) *)

Module Canvas.

Local Open Scope Q_scope.

Record Size : Type := mkSize { width : Q; height : Q }.

(** The fields of [AppSettings] read by the layout engine. *)
Record Settings : Type := mkSettings {
  padding : Q;
  inset : Q;
  scale : Q;
  aspectRatio : string
}.

Record Layout : Type := mkLayout {
  exportW : Q;
  exportH : Q;
  cardW : Q;
  cardH : Q
}.

Definition zeroLayout : Layout := mkLayout 0 0 0 0.


(** The ranges of the sliders that feed the settings
    ([src/components/Sidebar.tsx]). *)
Definition inRange (s : Settings) : Prop :=
  0 <= padding s /\ padding s <= 400 /\
  0 <= inset s /\ inset s <= 100 /\
  10 <= scale s /\ scale s <= 300.

(** The card size the layout engine computes for a ready image: the scaled natural size plus the inset on
    both sides. *)
Definition cardWOf (s : Settings) (d : Size) : Q :=
  width d * (scale s / 100) + inset s * 2.
Definition cardHOf (s : Settings) (d : Size) : Q :=
  height d * (scale s / 100) + inset s * 2.

Section LayoutEngine.

(** The platform's [Number(...)] conversion: [None] as argument is
    [undefined], [None] as result is a value that is not a finite
    rational. *)
Variable Number : option string -> option Q.

(** [layout]: the memoised layout computation of the canvas. *)
Definition layout (image : option string) (settings : Settings)
    (imgDimensions : Size) : option Layout :=
  if Js.falsy image || Qeq_bool (width imgDimensions) 0 then Some zeroLayout
  else
    let natW := width imgDimensions in
    let natH := height imgDimensions in
    let displayScale := scale settings / 100 in
    let imageDisplayW := natW * displayScale in
    let imageDisplayH := natH * displayScale in
    let cardW := imageDisplayW + inset settings * 2 in
    let cardH := imageDisplayH + inset settings * 2 in
    if String.eqb (aspectRatio settings) "auto" then
      let exportW := cardW + padding settings * 2 in
      let exportH := cardH + padding settings * 2 in
      Some (mkLayout exportW exportH cardW cardH)
    else
      let parts := Js.split "/" (aspectRatio settings) in
      match Number (nth_error parts 0), Number (nth_error parts 1) with
      | Some rW, Some rH =>
          if Qeq_bool rH 0 then None
          else
            let targetRatio := rW / rH in
            if Qeq_bool targetRatio 0 then None
            else
              let minExportW := cardW + padding settings * 2 in
              let minExportH := cardH + padding settings * 2 in
              let exportW := minExportW in
              let exportH := exportW / targetRatio in
              if Qlt_le_dec exportH minExportH then
                let exportH := minExportH in
                let exportW := exportH * targetRatio in
                Some (mkLayout exportW exportH cardW cardH)
              else Some (mkLayout exportW exportH cardW cardH)
      | _, _ => None
      end.

End LayoutEngine.

Definition FILL : Q := 75 # 100.

(** [viewportScale]: the memoised preview scale.  [None] when the height
    division is by zero. *)
Definition viewportScale (containerSize : Size) (l : Layout) : option Q :=
  if Qeq_bool (width containerSize) 0 || Qeq_bool (exportW l) 0 then Some (1 # 10)
  else
    let scaleX := (width containerSize * FILL) / exportW l in
    if Qeq_bool (exportH l) 0 then None
    else
      let scaleY := (height containerSize * FILL) / exportH l in
      Some (Qmin scaleX scaleY).

End Canvas.

(** ** Colour extraction ([src/App.tsx]) *)

Module Palette.

Local Open Scope Q_scope.

Definition max3 (a b c : Q) : Q := Qmax (Qmax a b) c.
Definition min3 (a b c : Q) : Q := Qmin (Qmin a b) c.

(** [Math.round(x)]: the nearest integer, halves towards plus infinity. *)
Definition round (x : Q) : Z := Qfloor (x + (1 # 2)).

(** [rgbToHsl].  For channels within 0..255 and [max <> min] the two
    denominators of the saturation and the divisor [d] are not zero. *)
Definition rgbToHsl (r g b : Q) : Q * Q * Q :=
  let r := r / 255 in
  let g := g / 255 in
  let b := b / 255 in
  let max := max3 r g b in
  let min := min3 r g b in
  let l := (max + min) / 2 in
  if Qeq_bool max min then (0, 0, l)
  else
    let d := max - min in
    let s := if Qlt_le_dec (1 # 2) l then d / (2 - max - min)
             else d / (max + min) in
    let h :=
      if Qeq_bool max r then (g - b) / d + (if Qlt_le_dec g b then 6 else 0)
      else if Qeq_bool max g then (b - r) / d + 2
      else if Qeq_bool max b then (r - g) / d + 4
      else 0 in
    (h / 6, s, l).

Definition hue2rgb (p q t : Q) : Q :=
  let t := if Qlt_le_dec t 0 then t + 1 else t in
  let t := if Qlt_le_dec 1 t then t - 1 else t in
  if Qlt_le_dec t (1 / 6) then p + (q - p) * 6 * t
  else if Qlt_le_dec t (1 / 2) then q
  else if Qlt_le_dec t (2 / 3) then p + (q - p) * (2 / 3 - t) * 6
  else p.

(** [x.toString(16)] on an integer, left-padded to two characters. *)
Definition toHex (x : Z) : string :=
  let hex := HexadecimalString.NilZero.string_of_int (Z.to_hex_int x) in
  if Nat.eqb (String.length hex) 1 then "0" ++ hex else hex.

(** The three channels [hslToHex] rounds before printing them. *)
Definition hslToRgb (h s l : Q) : Z * Z * Z :=
  let q := if Qlt_le_dec l (1 # 2) then l * (1 + s) else l + s - l * s in
  let p := 2 * l - q in
  let r := round (hue2rgb p q (h + 1 / 3) * 255) in
  let g := round (hue2rgb p q h * 255) in
  let b := round (hue2rgb p q (h - 1 / 3) * 255) in
  (r, g, b).

Definition hslToHex (h s l : Q) : string :=
  let '(r, g, b) := hslToRgb h s l in
  "#" ++ toHex r ++ toHex g ++ toHex b.

(** The saturation and lightness [toMorandi] hands to [hslToHex]. *)
Definition newS (s : Q) : Q := (5 # 100) + Qmin s (1 # 2) * (20 # 100).
Definition newL (l : Q) : Q := (75 # 100) + Qmin l 1 * (10 # 100).

Definition toMorandi (r g b : Q) : string :=
  let '(h, s, l) := rgbToHsl r g b in
  hslToHex h (newS s) (newL l).

(** Reading a colour back from its "#rrggbb" text (lower-case digits, as
    [toHex] prints them): the inverse of the printing done by [hslToHex],
    followed by [rgbToHsl]. *)
Definition hexDigit (c : ascii) : option Z :=
  let n := Z.of_nat (nat_of_ascii c) in
  if (48 <=? n)%Z && (n <=? 57)%Z then Some (n - 48)%Z
  else if (97 <=? n)%Z && (n <=? 102)%Z then Some (n - 87)%Z
  else None.

Definition hexByte (hi lo : ascii) : option Z :=
  match hexDigit hi, hexDigit lo with
  | Some h, Some l => Some (16 * h + l)%Z
  | _, _ => None
  end.

Definition hexToRgb (hex : string) : option (Z * Z * Z) :=
  match hex with
  | String "#" (String r1 (String r0 (String g1 (String g0
      (String b1 (String b0 EmptyString)))))) =>
      match hexByte r1 r0, hexByte g1 g0, hexByte b1 b0 with
      | Some r, Some g, Some b => Some (r, g, b)
      | _, _, _ => None
      end
  | _ => None
  end.

Definition hexToHsl (hex : string) : option (Q * Q * Q) :=
  match hexToRgb hex with
  | Some (r, g, b) => Some (rgbToHsl (inject_Z r) (inject_Z g) (inject_Z b))
  | None => None
  end.

(** Printing a channel with [toHex] and reading the two digits back
    returns the channel. *)
Definition hexPrintsBack (x : Z) : bool :=
  match toHex x with
  | String hi (String lo EmptyString) =>
      match hexByte hi lo with
      | Some y => (y =? x)%Z
      | None => false
      end
  | _ => false
  end.

(** One RGBA quadruple of [ImageData.data]: entry [i] of a pixel list
    stands for the bytes [4i .. 4i+3] the sampling loop reads. *)
Record Pixel : Type := mkPixel { red : Z; green : Z; blue : Z; alpha : Z }.

(** A key of [colorCounts]: the three floored channels the source joins
    with commas (and later splits and converts back with [Number]). *)
Definition Key : Type := (Z * Z * Z)%type.

Definition key_eqb (k1 k2 : Key) : bool :=
  let '(r1, g1, b1) := k1 in
  let '(r2, g2, b2) := k2 in
  (r1 =? r2)%Z && (g1 =? g2)%Z && (b1 =? b2)%Z.

(** [colorCounts]: an object used as a map; its entries are enumerated in
    insertion order. *)
Definition Counts : Type := list (Key * nat).

Fixpoint lookup (key : Key) (cc : Counts) : option nat :=
  match cc with
  | [] => None
  | (k, n) :: rest => if key_eqb k key then Some n else lookup key rest
  end.

(** [colorCounts[key] = (colorCounts[key] || 0) + 1]. *)
Fixpoint bump (key : Key) (cc : Counts) : Counts :=
  match cc with
  | [] => [(key, 1%nat)]
  | (k, n) :: rest =>
      if key_eqb k key then (k, (n + 1)%nat) :: rest
      else (k, n) :: bump key rest
  end.

Definition bin : Z := 32.

Definition brightness (px : Pixel) : Q :=
  inject_Z (red px + green px + blue px) / 3.

Definition binKey (px : Pixel) : Key :=
  ((red px / bin) * bin, (green px / bin) * bin, (blue px / bin) * bin)%Z.

(** One iteration of the counting loop, [continue] returning the map
    unchanged. *)
Definition countPixel (cc : Counts) (px : Pixel) : Counts :=
  if (alpha px <? 128)%Z then cc
  else if Qlt_le_dec (brightness px) 60 then cc
  else if Qlt_le_dec 230 (brightness px) then cc
  else bump (binKey px) cc.

Definition quantize (imageData : list Pixel) : Counts :=
  fold_left countPixel imageData [].

(** The count stored under a key, zero when the key is absent. *)
Definition countOf (key : Key) (cc : Counts) : nat :=
  match lookup key cc with
  | Some n => n
  | None => O
  end.

(** Every stored count is at least one. *)
Definition positiveCounts (cc : Counts) : Prop :=
  Forall (fun e => (1 <= snd e)%nat) cc.

(** The pixels that get past the three [continue] guards of the loop. *)
Definition counted (px : Pixel) : bool :=
  negb (alpha px <? 128)%Z &&
  (if Qlt_le_dec (brightness px) 60 then false else true) &&
  (if Qlt_le_dec 230 (brightness px) then false else true).

(** The counted pixels of the sample whose bin is [key]. *)
Definition survivors (key : Key) (imageData : list Pixel) : list Pixel :=
  filter (fun px => counted px && key_eqb (binKey px) key) imageData.

(** [sort(([, a], [, b]) => b - a)]: descending by count; the sort of the
    platform is stable, entries of equal count keep their order. *)
Fixpoint insertDesc (e : Key * nat) (l : Counts) : Counts :=
  match l with
  | [] => [e]
  | x :: xs =>
      if (snd x <=? snd e)%nat then e :: x :: xs else x :: insertDesc e xs
  end.

Definition sortDesc (cc : Counts) : Counts := fold_right insertDesc [] cc.

Definition sortedColors (cc : Counts) : list string :=
  map (fun e => let '(r, g, b) := fst e in
                toMorandi (inject_Z r) (inject_Z g) (inject_Z b))
      (sortDesc cc).

Definition isDistinct (c1 c2 : string) : bool := negb (String.eqb c1 c2).

(** The selection loop over [sortedColors[1..]], with its [break]. *)
Fixpoint pickLoop (palette : list string) (rest : list string) : list string :=
  match rest with
  | [] => palette
  | c :: rest' =>
      if (5 <=? List.length palette)%nat then palette
      else if forallb (fun p => isDistinct p c) palette
           then pickLoop (palette ++ [c]) rest'
           else pickLoop palette rest'
  end.

Definition pickDistinct (sorted : list string) : list string :=
  match sorted with
  | [] => []
  | c :: rest => pickLoop [c] rest
  end.

Definition defaultMorandi : list string :=
  ["#e2e4e9"; "#dbeafe"; "#f3e8ff"; "#fae8ff"; "#e0f2fe"].

(** [while (palette.length < 5) palette.push(defaultMorandi[fillIdx++ % 5])];
    [None] when the fuel runs out before the loop exits. *)
Fixpoint fillLoop (fuel : nat) (fillIdx : nat) (palette : list string)
    : option (list string) :=
  if (List.length palette <? 5)%nat then
    match fuel with
    | O => None
    | S fuel' =>
        fillLoop fuel' (S fillIdx)
          (palette ++
           [nth (fillIdx mod List.length defaultMorandi) defaultMorandi ""])
    end
  else Some palette.

(** What happened to the image element: [onerror], [onload] without a 2d
    context, or [onload] with the 50 x 50 sample read back. *)
Inductive ImageLoad : Type :=
| LoadError
| NoContext
| Sampled (imageData : list Pixel).

(** The value the promise resolves to; [dominant = None] is [undefined]. *)
Record Colors : Type := mkColors {
  dominant : option string;
  palette : list string
}.

(** [getImageColors]; [None] only if the fill loop ran out of fuel. *)
Definition getImageColors (src : ImageLoad) : option Colors :=
  match src with
  | LoadError => Some (mkColors (Some "#e5e5e5") [])
  | NoContext => Some (mkColors (Some "#e5e5e5") [])
  | Sampled imageData =>
      let picked := pickDistinct (sortedColors (quantize imageData)) in
      match fillLoop 5 0 picked with
      | Some palette => Some (mkColors (nth_error palette 0) palette)
      | None => None
      end
  end.

End Palette.

(** ** Seeded mesh shuffle ([MeshGradient] in [src/unnamed/part_000]) *)

Module Mesh.

Local Open Scope R_scope.

(** Why a run of the embedded loops stops without a value: an array read
    outside [0 .. length-1] (JavaScript would read [undefined] there and
    grow the array on the following write), or exhausted fuel. *)
Inductive fault : Type := OutOfBounds | OutOfFuel.

Inductive result (A : Type) : Type :=
| Ok (a : A)
| Fault (f : fault).

Arguments Ok {A} a.
Arguments Fault {A} f.

Definition bind {A B : Type} (m : result A) (k : A -> result B) : result B :=
  match m with
  | Ok a => k a
  | Fault f => Fault f
  end.

Notation "x <- m ;; k" := (bind m (fun x => k))
  (at level 61, m at next level, right associativity).

(** The "safe fallback palette" of [MeshGradient]. *)
Definition fallbackPalette : list string :=
  ["#eef2ff"; "#f0fdf4"; "#fff1f2"; "#fafaf9"; "#f5f3ff"].

(** [const p = palette.length >= 3 ? palette : [...]]. *)
Definition chooseP (palette : list string) : list string :=
  if (3 <=? List.length palette)%nat then palette else fallbackPalette.

(** [colors[i]] read at an integer index. *)
Definition get (colors : list string) (i : Z) : result string :=
  if (i <? 0)%Z then Fault OutOfBounds
  else match nth_error colors (Z.to_nat i) with
       | Some c => Ok c
       | None => Fault OutOfBounds
       end.

(** [colors[i] = c] at an index inside the array. *)
Fixpoint set (colors : list string) (i : nat) (c : string) : list string :=
  match colors, i with
  | [], _ => []
  | _ :: rest, O => c :: rest
  | x :: rest, S i' => x :: set rest i' c
  end.

(** [while (colors.length < 5) colors.push(colors[colors.length % colors.length])]. *)
Fixpoint padLoop (fuel : nat) (colors : list string) : result (list string) :=
  if (List.length colors <? 5)%nat then
    match fuel with
    | O => Fault OutOfFuel
    | S fuel' =>
        match nth_error colors (List.length colors mod List.length colors) with
        | Some c => padLoop fuel' (colors ++ [c])
        | None => Fault OutOfBounds
        end
    end
  else Ok colors.

(** [Math.floor]. *)
Definition floor (x : R) : Z := Int_part x.

(** The closure [random]: the draw and the incremented [currentSeed]. *)
Definition random (currentSeed : Z) : R * Z :=
  let x := sin (IZR currentSeed) * 10000 in
  (x - IZR (floor x), (currentSeed + 1)%Z).

(** [Math.floor(random() * currentIndex)]. *)
Definition randomIndex (currentSeed : Z) (currentIndex : nat) : Z :=
  floor (fst (random currentSeed) * INR currentIndex).

(** [while (currentIndex !== 0) { ... }]: one draw, the decrement and the
    destructuring swap per iteration. *)
Fixpoint shuffleLoop (currentIndex : nat) (currentSeed : Z)
    (colors : list string) : result (list string) :=
  match currentIndex with
  | O => Ok colors
  | S currentIndex' =>
      let randomIndex := randomIndex currentSeed currentIndex in
      let currentSeed' := snd (random currentSeed) in
      a <- get colors randomIndex ;;
      b <- get colors (Z.of_nat currentIndex') ;;
      shuffleLoop currentIndex' currentSeed'
        (set (set colors currentIndex' a) (Z.to_nat randomIndex) b)
  end.

(** The padded copy of [p] the shuffle starts from. *)
Definition padded (palette : list string) : result (list string) :=
  padLoop 5 (chooseP palette).

(** [shuffled]: the memoised value of [MeshGradient]. *)
Definition shuffled (palette : list string) (seed : Z) : result (list string) :=
  colors <- padded palette ;;
  shuffleLoop (List.length colors) seed colors.

End Mesh.

(** ** Shadow geometry ([shadowStyle] in [src/unnamed/part_000]) *)

Module Shadow.

Local Open Scope R_scope.

(** The five numbers interpolated into the [box-shadow] string, in the
    order x offset, y offset, blur, spread, alpha of [rgba(0,0,0,alpha)].
    The spread is printed behind a literal minus sign. *)
Record ShadowDescriptor : Type := mkShadow {
  offsetX : Z;
  offsetY : Z;
  blurRadius : R;
  spreadRadius : R;
  alpha : R
}.

(** [Math.round]. *)
Definition round (x : R) : Z := Int_part (x + / 2).

Definition angleRad (shadowAngle : R) : R := (shadowAngle * PI) / 180.

Definition dist (shadow : R) : R := shadow * 0.6.

Definition shadowStyle (shadow shadowAngle : R) : ShadowDescriptor :=
  {| offsetX := round (cos (angleRad shadowAngle) * dist shadow);
     offsetY := round (sin (angleRad shadowAngle) * dist shadow);
     blurRadius := shadow * 1.2;
     spreadRadius := - (shadow * 0.1);
     alpha := 0.15 + shadow / 250 |}.

End Shadow.

(** ** Derived quantities of the colour extraction *)

Module Extraction.

Import Palette.

(** The keys of [colorCounts], in insertion order ([Object.keys]). *)
Definition keys (cc : Counts) : list Key := map fst cc.

(** The sum of all stored counts. *)
Definition total (cc : Counts) : nat := fold_right (fun e n => (snd e + n)%nat) O cc.

(** The colour [sortedColors] prints for an entry: the key is split into
    its three numbers and handed to [toMorandi]. *)
Definition keyColor (key : Key) : string :=
  let '(r, g, b) := key in
  toMorandi (inject_Z r) (inject_Z g) (inject_Z b).

(** A pixel read from a [Uint8ClampedArray]: four bytes. *)
Definition bytePixel (px : Pixel) : Prop :=
  (0 <= red px <= 255)%Z /\ (0 <= green px <= 255)%Z /\
  (0 <= blue px <= 255)%Z /\ (0 <= alpha px <= 255)%Z.

(** The eight values a floored byte channel can take, and the 512 keys
    made of them. *)
Definition binLevels : list Z := map (fun i => (Z.of_nat i * bin)%Z) (seq 0 8).

Definition allKeys : list Key :=
  map (fun rgb => (fst (fst rgb), snd (fst rgb), snd rgb))
      (list_prod (list_prod binLevels binLevels) binLevels).

End Extraction.

(** ** Constants ([src/unnamed/part_001]) *)

Module Constants.

(** [RATIOS]: label and value of the ratio buttons. *)
Definition RATIOS : list (string * string) :=
  [("Original", "auto"); ("1:1", "1/1"); ("4:3", "4/3"); ("16:9", "16/9");
   ("9:16", "9/16")].

End Constants.

(** ** Drag to reposition (the mouse handlers of the canvas in
    [src/unnamed/part_000]) *)

Module Pan.

Local Open Scope Q_scope.

(** [dragStart.current]. *)
Record DragStart : Type := mkDragStart { x : Q; y : Q; pX : Q; pY : Q }.

(** The state the three handlers read and write: the [isPanning] flag,
    the [dragStart] reference and the pan offsets of the settings.  Each
    handler runs on the state left by the previous event. *)
Record State : Type := mkState {
  isPanning : bool;
  dragStart : DragStart;
  panX : Q;
  panY : Q
}.

Definition handleMouseDown (image : option string) (st : State)
    (clientX clientY : Q) : State :=
  if Js.falsy image then st
  else mkState true (mkDragStart clientX clientY (panX st) (panY st))
               (panX st) (panY st).

Definition handleMouseMove (st : State) (clientX clientY : Q) : State :=
  if negb (isPanning st) then st
  else mkState (isPanning st) (dragStart st)
               (pX (dragStart st) + (clientX - x (dragStart st)))
               (pY (dragStart st) + (clientY - y (dragStart st))).

Definition handleMouseUp (st : State) : State :=
  mkState false (dragStart st) (panX st) (panY st).

(** A run of [mousemove] events, oldest first. *)
Definition moves (st : State) (points : list (Q * Q)) : State :=
  fold_left (fun s pt => handleMouseMove s (fst pt) (snd pt)) points st.

End Pan.

(** ** Light direction control ([ShadowAnglePicker] in
    [src/components/Sidebar.tsx]) *)

Module AnglePicker.

Local Open Scope Q_scope.

(** [x % m] on numbers: the remainder has the sign of [x]. *)
Definition jsRem (x m : Q) : Q :=
  let quotient := x / m in
  x - m * inject_Z (Z.quot (Qnum quotient) (Zpos (Qden quotient))).

(** [lightAngle = (value + 180) % 360] for an integer [value]. *)
Definition lightAngle (value : Z) : Z := Z.rem (value + 180) 360.

(** The value [handleInteraction] hands to [onChange]; [atanDeg] stands
    for [Math.atan2(dy, dx) * (180 / Math.PI)]. *)
Definition pickedAngle (atanDeg : Q) : Z :=
  let angle := if Qlt_le_dec atanDeg 0 then atanDeg + 360 else atanDeg in
  Palette.round (jsRem (angle + 180) 360).

End AnglePicker.

(** ** From the extracted palette to the mesh ([App] hands [palette] to
    the canvas, which hands it to [MeshGradient]) *)

Module App.

(** The [palette] state after [getImageColors] has resolved for the
    current image; it is the empty list while no image is set. *)
Definition paletteState (src : option Palette.ImageLoad) : option (list string) :=
  match src with
  | None => Some []
  | Some load =>
      match Palette.getImageColors load with
      | Some c => Some (Palette.palette c)
      | None => None
      end
  end.

(** The colours of the five blobs for that state and a mesh seed. *)
Definition meshColors (src : option Palette.ImageLoad) (seed : Z)
    : Mesh.result (list string) :=
  match paletteState src with
  | Some p => Mesh.shuffled p seed
  | None => Mesh.Fault Mesh.OutOfFuel
  end.

End App.

(** * Properties *)

(** ** Layout engine *)

Module CanvasFacts.

Import Canvas.
Import Lqa.
Local Open Scope Q_scope.

Lemma Qeq_bool_false (x y : Q) : ~ x == y -> Qeq_bool x y = false.
Proof.
  intros H. destruct (Qeq_bool x y) eqn:E; [|reflexivity].
  apply Qeq_bool_iff in E. contradiction.
Qed.

Lemma falsy_present (image : string) : image <> "" -> Js.falsy (Some image) = false.
Proof.
  intros H. simpl. destruct (String.eqb image "") eqn:E; [|reflexivity].
  apply String.eqb_eq in E. contradiction.
Qed.

Lemma not_auto (a : string) : a <> "auto" -> String.eqb a "auto" = false.
Proof.
  intros H. destruct (String.eqb a "auto") eqn:E; [|reflexivity].
  apply String.eqb_eq in E. contradiction.
Qed.

(** *** The engine on the scenarios of the specification *)

Example split_ratio : Js.split "/" "16/9" = ["16"; "9"].
Proof. reflexivity. Qed.

Example split_no_separator : Js.split "/" "auto" = ["auto"].
Proof. reflexivity. Qed.

Example layout_scenario_auto :
  exists l,
    layout Js.NumberDec (Some "img") (mkSettings 64 16 100 "auto")
           (mkSize 1000 500) = Some l /\
    cardW l == 1032 /\ cardH l == 532 /\
    exportW l == 1160 /\ exportH l == 660.
Proof. eexists. split; [reflexivity|]. repeat split; reflexivity. Qed.

Example layout_scenario_wide :
  exists l,
    layout Js.NumberDec (Some "img") (mkSettings 64 16 100 "16/9")
           (mkSize 1000 500) = Some l /\
    exportW l == 3520 # 3 /\ exportH l == 660.
Proof. eexists. split; [reflexivity|]. repeat split; reflexivity. Qed.

Example layout_no_image :
  layout Js.NumberDec None (mkSettings 64 16 100 "auto") (mkSize 1000 500) =
  Some zeroLayout.
Proof. reflexivity. Qed.

Example layout_malformed_ratio :
  layout Js.NumberDec (Some "img") (mkSettings 64 16 100 "wide")
         (mkSize 1000 500) = None.
Proof. reflexivity. Qed.

Example viewportScale_scenario :
  exists k,
    viewportScale (mkSize 800 600) (mkLayout 1160 660 1032 532) = Some k /\
    k == 15 # 29.
Proof. eexists. split; reflexivity. Qed.

Section LayoutFacts.

Variable Number : option string -> option Q.

Lemma layout_auto (image : string) (s : Settings) (d : Size) :
  image <> "" -> ~ width d == 0 -> aspectRatio s = "auto" ->
  layout Number (Some image) s d =
  Some (mkLayout (cardWOf s d + padding s * 2) (cardHOf s d + padding s * 2)
                 (cardWOf s d) (cardHOf s d)).
Proof.
  intros Hi Hw Ha. unfold layout.
  rewrite (falsy_present _ Hi), (Qeq_bool_false _ _ Hw), Ha. reflexivity.
Qed.

Lemma layout_ratio (image : string) (s : Settings) (d : Size) (rW rH : Q) :
  image <> "" -> ~ width d == 0 -> aspectRatio s <> "auto" ->
  Number (nth_error (Js.split "/" (aspectRatio s)) 0) = Some rW ->
  Number (nth_error (Js.split "/" (aspectRatio s)) 1) = Some rH ->
  0 < rW -> 0 < rH ->
  layout Number (Some image) s d =
  Some (if Qlt_le_dec ((cardWOf s d + padding s * 2) / (rW / rH))
                      (cardHOf s d + padding s * 2)
        then mkLayout ((cardHOf s d + padding s * 2) * (rW / rH))
                      (cardHOf s d + padding s * 2) (cardWOf s d) (cardHOf s d)
        else mkLayout (cardWOf s d + padding s * 2)
                      ((cardWOf s d + padding s * 2) / (rW / rH))
                      (cardWOf s d) (cardHOf s d)).
Proof.
  intros Hi Hw Ha HW HH HrW HrH. unfold layout.
  rewrite (falsy_present _ Hi), (Qeq_bool_false _ _ Hw), (not_auto _ Ha), HW, HH.
  simpl orb. cbv iota.
  assert (HrH0 : ~ rH == 0) by (intro E; rewrite E in HrH; discriminate).
  rewrite (Qeq_bool_false _ _ HrH0).
  assert (HT : 0 < rW / rH).
  { apply Qlt_shift_div_l; [assumption|]. rewrite Qmult_0_l. assumption. }
  assert (HT0 : ~ rW / rH == 0) by (intro E; rewrite E in HT; discriminate).
  rewrite (Qeq_bool_false _ _ HT0).
  fold (cardWOf s d). fold (cardHOf s d).
  destruct (Qlt_le_dec _ _); reflexivity.
Qed.

Lemma Qdiv_lt_mult (a b c : Q) : 0 < b -> a / b < c -> a < c * b.
Proof.
  intros Hb H.
  assert (E : a == a / b * b) by (field; intro E; rewrite E in Hb; discriminate).
  rewrite E. apply Qmult_lt_compat_r; assumption.
Qed.

Lemma Qdiv_div_cancel (a t : Q) : ~ a == 0 -> ~ t == 0 -> a / (a / t) == t.
Proof. intros Ha Ht. field. split; assumption. Qed.

Lemma cardWOf_pos (s : Settings) (d : Size) :
  0 < width d -> 0 <= inset s -> 0 < scale s -> 0 < cardWOf s d.
Proof.
  intros Hw Hi Hs. unfold cardWOf.
  assert (0 < width d * (scale s / 100)).
  { apply Qmult_lt_0_compat; [assumption|].
    apply Qlt_shift_div_l; [reflexivity|]. rewrite Qmult_0_l. assumption. }
  lra.
Qed.

Lemma layout_ratio_facts (image : string) (s : Settings) (d : Size) (rW rH : Q) :
  image <> "" -> ~ width d == 0 -> aspectRatio s <> "auto" ->
  Number (nth_error (Js.split "/" (aspectRatio s)) 0) = Some rW ->
  Number (nth_error (Js.split "/" (aspectRatio s)) 1) = Some rH ->
  0 < rW -> 0 < rH ->
  0 < cardWOf s d + padding s * 2 ->
  exists l, layout Number (Some image) s d = Some l /\
    cardW l = cardWOf s d /\ cardH l = cardHOf s d /\
    exportW l / exportH l == rW / rH /\
    cardWOf s d + padding s * 2 <= exportW l /\
    cardHOf s d + padding s * 2 <= exportH l /\
    0 < exportW l /\ 0 < exportH l.
Proof.
  intros Hi Hw0 Ha HW HH HrW HrH HA.
  rewrite (layout_ratio image s d rW rH Hi Hw0 Ha HW HH HrW HrH).
  assert (HT : 0 < rW / rH).
  { apply Qlt_shift_div_l; [assumption|]. rewrite Qmult_0_l. assumption. }
  assert (HT0 : ~ rW / rH == 0) by (intro E; rewrite E in HT; discriminate).
  set (T := rW / rH) in *.
  set (A := cardWOf s d + padding s * 2) in *.
  set (B := cardHOf s d + padding s * 2).
  assert (HA0 : ~ A == 0) by (intro E; rewrite E in HA; discriminate).
  assert (HAT : 0 < A / T).
  { apply Qlt_shift_div_l; [assumption|]. rewrite Qmult_0_l. assumption. }
  destruct (Qlt_le_dec (A / T) B) as [Hlt | Hle]; eexists;
    (split; [reflexivity|]); simpl; (split; [reflexivity|]);
    (split; [reflexivity|]).
  - assert (HB : 0 < B) by lra.
    assert (HB0 : ~ B == 0) by (intro E; rewrite E in HB; discriminate).
    pose proof (Qdiv_lt_mult A T B HT Hlt) as HAB.
    split; [field; assumption|]. repeat split; lra.
  - split; [apply Qdiv_div_cancel; assumption|]. repeat split; lra.
Qed.


Lemma layout_not_ready (image : option string) (s : Settings) (d : Size) :
  Js.falsy image = true \/ width d == 0 ->
  layout Number image s d = Some zeroLayout.
Proof.
  intros [H | H]; unfold layout.
  - rewrite H. reflexivity.
  - apply Qeq_bool_iff in H. rewrite H, orb_true_r. reflexivity.
Qed.



End LayoutFacts.

(** ** Viewport scaling *)

Lemma viewportScale_guard (c : Size) (l : Layout) :
  width c == 0 \/ exportW l == 0 -> viewportScale c l = Some (1 # 10).
Proof.
  intros [H | H]; unfold viewportScale; apply Qeq_bool_iff in H; rewrite H.
  - reflexivity.
  - rewrite orb_true_r. reflexivity.
Qed.

Lemma viewportScale_min (c : Size) (l : Layout) :
  ~ width c == 0 -> ~ exportW l == 0 -> ~ exportH l == 0 ->
  viewportScale c l =
  Some (Qmin (width c * FILL / exportW l) (height c * FILL / exportH l)).
Proof.
  intros Hc HW HH. unfold viewportScale.
  rewrite (Qeq_bool_false _ _ Hc), (Qeq_bool_false _ _ HW),
    (Qeq_bool_false _ _ HH). reflexivity.
Qed.


(** C6.  When the container size is zero (width and height) or the export
    size is zero (width and height), the preview scale is the fallback
    0.1.  The guard of the source tests the two widths. *)
Theorem viewportScale_fallback (c : Size) (l : Layout) :
  (width c == 0 /\ height c == 0) \/ (exportW l == 0 /\ exportH l == 0) ->
  viewportScale c l = Some (1 # 10).
Proof.
  intros [[H _] | [H _]]; apply viewportScale_guard; [left | right]; assumption.
Qed.




Lemma viewportScale_fallback_witness :
  viewportScale (mkSize 0 0) (mkLayout 1160 660 1032 532) = Some (1 # 10).
Proof.
  apply (viewportScale_fallback (mkSize 0 0) (mkLayout 1160 660 1032 532)).
  left. split; reflexivity.
Defined.

End CanvasFacts.

(** ** Quantiser and palette selection *)

Module PaletteFacts.

Import Palette.
Import Lqa.
Local Open Scope Q_scope.

(** *** The extraction on small samples *)

Example toMorandi_black : toMorandi 0 0 0 = "#c2bcbc".
Proof. reflexivity. Qed.

Example toMorandi_red : toMorandi 255 0 0 = "#d4c4c4".
Proof. reflexivity. Qed.

Example hexToRgb_black_morandi : hexToRgb "#c2bcbc" = Some (194, 188, 188)%Z.
Proof. reflexivity. Qed.

Example quantize_sample :
  quantize [mkPixel 60 60 60 255; mkPixel 200 10 10 255; mkPixel 61 61 61 200;
            mkPixel 61 61 61 100; mkPixel 200 10 10 255;
            mkPixel 230 230 230 255; mkPixel 230 231 230 255] =
  [((32, 32, 32)%Z, 2%nat); ((192, 0, 0)%Z, 2%nat); ((224, 224, 224)%Z, 1%nat)].
Proof. reflexivity. Qed.

Example getImageColors_transparent :
  getImageColors (Sampled (repeat (mkPixel 200 10 10 0) 8)) =
  Some (mkColors (Some "#e2e4e9") defaultMorandi).
Proof. reflexivity. Qed.

Example getImageColors_solid :
  getImageColors (Sampled (repeat (mkPixel 200 10 10 255) 8)) =
  Some (mkColors (Some "#d1c1c1")
          ["#d1c1c1"; "#e2e4e9"; "#dbeafe"; "#f3e8ff"; "#fae8ff"]).
Proof. reflexivity. Qed.

Lemma key_eqb_eq (k1 k2 : Key) : key_eqb k1 k2 = true <-> k1 = k2.
Proof.
  destruct k1 as [[r1 g1] b1], k2 as [[r2 g2] b2]. unfold key_eqb.
  rewrite !andb_true_iff, !Z.eqb_eq. split.
  - intros [[-> ->] ->]. reflexivity.
  - intros E. injection E as -> -> ->. auto.
Qed.

Lemma key_eqb_refl (k : Key) : key_eqb k k = true.
Proof. apply key_eqb_eq. reflexivity. Qed.

Lemma key_eqb_sym (k1 k2 : Key) : key_eqb k1 k2 = key_eqb k2 k1.
Proof.
  destruct (key_eqb k1 k2) eqn:E1, (key_eqb k2 k1) eqn:E2; try reflexivity.
  - apply key_eqb_eq in E1. subst. rewrite key_eqb_refl in E2. discriminate.
  - apply key_eqb_eq in E2. subst. rewrite key_eqb_refl in E1. discriminate.
Qed.

Lemma countOf_bump (key k : Key) (cc : Counts) :
  countOf k (bump key cc) =
  (countOf k cc + (if key_eqb key k then 1 else 0))%nat.
Proof.
  unfold countOf. induction cc as [|[k0 n] rest IH]; simpl.
  - destruct (key_eqb key k); reflexivity.
  - destruct (key_eqb k0 key) eqn:E0; simpl.
    + apply key_eqb_eq in E0. subst k0.
      destruct (key_eqb key k); [reflexivity|]. lia.
    + destruct (key_eqb k0 k) eqn:E1; [|exact IH].
      apply key_eqb_eq in E1. subst k0.
      rewrite key_eqb_sym, E0. lia.
Qed.

Lemma bump_positive (key : Key) (cc : Counts) :
  positiveCounts cc -> positiveCounts (bump key cc).
Proof.
  unfold positiveCounts. induction cc as [|[k0 n0] rest IH]; simpl; intros H.
  - constructor; [simpl; lia | constructor].
  - inversion H as [|? ? H1 H2]; subst. destruct (key_eqb k0 key).
    + constructor; [simpl; lia | assumption].
    + constructor; [assumption | apply IH; assumption].
Qed.

Lemma lookup_positive (k : Key) (cc : Counts) (n : nat) :
  positiveCounts cc -> lookup k cc = Some n -> (1 <= n)%nat.
Proof.
  unfold positiveCounts. induction cc as [|[k0 n0] rest IH]; simpl; intros H.
  - discriminate.
  - inversion H as [|? ? H1 H2]; subst. destruct (key_eqb k0 k).
    + intros E. injection E as <-. exact H1.
    + apply IH. assumption.
Qed.

Lemma bump_changes (key : Key) (cc : Counts) : bump key cc <> cc.
Proof.
  intros E. pose proof (countOf_bump key key cc) as H.
  rewrite E, key_eqb_refl in H. lia.
Qed.

Lemma countPixel_counted (cc : Counts) (px : Pixel) :
  countPixel cc px = if counted px then bump (binKey px) cc else cc.
Proof.
  unfold countPixel, counted.
  destruct (alpha px <? 128)%Z; [reflexivity|].
  destruct (Qlt_le_dec (brightness px) 60); [reflexivity|].
  destruct (Qlt_le_dec 230 (brightness px)); reflexivity.
Qed.

Lemma counted_iff (px : Pixel) :
  counted px = true <->
  (128 <= alpha px)%Z /\ 60 <= brightness px /\ brightness px <= 230.
Proof.
  unfold counted. split.
  - destruct (Z.ltb_spec (alpha px) 128); [discriminate|].
    destruct (Qlt_le_dec (brightness px) 60); [discriminate|].
    destruct (Qlt_le_dec 230 (brightness px)); [discriminate|].
    intros _. repeat split; assumption.
  - intros (Ha & Hl & Hu).
    destruct (Z.ltb_spec (alpha px) 128); [lia|].
    destruct (Qlt_le_dec (brightness px) 60); [lra|].
    destruct (Qlt_le_dec 230 (brightness px)); [lra|]. reflexivity.
Qed.

Lemma survivors_cons (k : Key) (px : Pixel) (rest : list Pixel) :
  survivors k (px :: rest) =
  if counted px && key_eqb (binKey px) k then px :: survivors k rest
  else survivors k rest.
Proof. reflexivity. Qed.

Lemma fold_countPixel_countOf (k : Key) (imageData : list Pixel) (cc : Counts) :
  countOf k (fold_left countPixel imageData cc) =
  (countOf k cc + List.length (survivors k imageData))%nat.
Proof.
  revert cc. induction imageData as [|px rest IH]; intros cc.
  - cbn. lia.
  - cbn [fold_left]. rewrite IH, countPixel_counted, survivors_cons.
    destruct (counted px); [|reflexivity].
    rewrite countOf_bump.
    destruct (key_eqb (binKey px) k); cbn [andb List.length]; lia.
Qed.

Lemma fold_countPixel_positive (imageData : list Pixel) (cc : Counts) :
  positiveCounts cc -> positiveCounts (fold_left countPixel imageData cc).
Proof.
  revert cc. induction imageData as [|px rest IH]; intros cc Hpos; simpl.
  - exact Hpos.
  - apply IH. rewrite countPixel_counted. destruct (counted px); [|exact Hpos].
    apply bump_positive. exact Hpos.
Qed.

Lemma binKey_floor (c : Z) :
  ((c / bin * bin) mod 32 = 0 /\ c / bin * bin <= c < c / bin * bin + 32)%Z.
Proof.
  unfold bin. split.
  - apply Z.mod_mul. lia.
  - pose proof (Z.mod_pos_bound c 32 ltac:(lia)).
    pose proof (Z.div_mod c 32 ltac:(lia)). lia.
Qed.

(** C8, amended.  A pixel changes the colour counts exactly when its alpha
    is at least 128 and its mean brightness is at least 60 and at most 230
    (both bounds included); it is then counted under the key made of its
    three channels floored to multiples of 32; and after the loop every
    key holds the number of such pixels of the sample that map to it, a
    key no such pixel maps to being absent. *)
Theorem quantize_counts_midtone_pixels :
  (forall (cc : Counts) (px : Pixel),
      countPixel cc px <> cc <->
      (128 <= alpha px)%Z /\ 60 <= brightness px /\ brightness px <= 230) /\
  (forall (cc : Counts) (px : Pixel),
      countPixel cc px <> cc -> countPixel cc px = bump (binKey px) cc) /\
  (forall px : Pixel,
      binKey px = ((red px / 32) * 32, (green px / 32) * 32, (blue px / 32) * 32)%Z /\
      ((red px / 32 * 32) mod 32 = 0 /\
       red px / 32 * 32 <= red px < red px / 32 * 32 + 32)%Z /\
      ((green px / 32 * 32) mod 32 = 0 /\
       green px / 32 * 32 <= green px < green px / 32 * 32 + 32)%Z /\
      ((blue px / 32 * 32) mod 32 = 0 /\
       blue px / 32 * 32 <= blue px < blue px / 32 * 32 + 32)%Z) /\
  (forall px : Pixel,
      counted px = true <->
      (128 <= alpha px)%Z /\ 60 <= brightness px /\ brightness px <= 230) /\
  (forall (imageData : list Pixel) (key : Key),
      lookup key (quantize imageData) =
      match List.length (survivors key imageData) with
      | O => None
      | S n => Some (S n)
      end).
Proof.
  split; [|split; [|split; [|split]]].
  - intros cc px. rewrite countPixel_counted, <- counted_iff.
    destruct (counted px); split; intros H; try reflexivity.
    + apply bump_changes.
    + exfalso. apply H. reflexivity.
    + discriminate.
  - intros cc px. rewrite countPixel_counted.
    destruct (counted px); intros H; [reflexivity|].
    exfalso. apply H. reflexivity.
  - intros px. split; [reflexivity|].
    repeat split; apply (binKey_floor _).
  - exact counted_iff.
  - intros imageData key.
    pose proof (fold_countPixel_countOf key imageData []) as Hc.
    pose proof (fold_countPixel_positive imageData [] (Forall_nil _)) as Hp.
    fold (quantize imageData) in Hc, Hp.
    unfold countOf in Hc. simpl in Hc.
    destruct (lookup key (quantize imageData)) as [n|] eqn:E.
    + pose proof (lookup_positive key _ n Hp E).
      rewrite <- Hc. destruct n; [lia|reflexivity].
    + rewrite <- Hc. reflexivity.
Qed.

(** C8, as stated, fails at a pixel of mean brightness exactly 60: the
    opaque pixel (60, 60, 60) is counted although its brightness is not
    strictly above 60. *)
Lemma quantize_counts_brightness_60 :
  ~ (forall (cc : Counts) (px : Pixel),
        countPixel cc px <> cc <->
        (128 <= alpha px)%Z /\ 60 < brightness px /\ brightness px < 230).
Proof.
  intros H.
  destruct (H [] (mkPixel 60 60 60 255)) as [H1 _].
  assert (Hc : countPixel [] (mkPixel 60 60 60 255) <> []) by (vm_compute; discriminate).
  destruct (H1 Hc) as (_ & Hlt & _).
  vm_compute in Hlt. discriminate.
Qed.

(** *** Palette selection and fallback fill *)

Lemma pickLoop_length (rest palette : list string) :
  (List.length palette <= 5)%nat ->
  (List.length (pickLoop palette rest) <= 5)%nat.
Proof.
  revert palette. induction rest as [|c rest IH]; intros palette H;
    cbn [pickLoop].
  - assumption.
  - destruct (5 <=? List.length palette)%nat eqn:E; [assumption|].
    apply Nat.leb_gt in E.
    destruct (forallb _ palette); apply IH;
      [rewrite length_app; simpl; lia | assumption].
Qed.

Lemma pickDistinct_length (sorted : list string) :
  (List.length (pickDistinct sorted) <= 5)%nat.
Proof.
  destruct sorted as [|c rest]; simpl; [lia|].
  apply pickLoop_length. simpl. lia.
Qed.

Lemma fillLoop_done (fuel fillIdx : nat) (palette : list string) :
  (5 <= List.length palette)%nat -> fillLoop fuel fillIdx palette = Some palette.
Proof.
  intros H. apply Nat.ltb_ge in H. destruct fuel; cbn [fillLoop]; rewrite H; reflexivity.
Qed.

Lemma fillLoop_spec (fuel fillIdx : nat) (palette : list string) :
  (5 <= List.length palette + fuel)%nat ->
  fillLoop fuel fillIdx palette =
  Some (palette ++
        map (fun i => nth (i mod 5) defaultMorandi "")
            (seq fillIdx (5 - List.length palette)))%list.
Proof.
  revert fillIdx palette.
  induction fuel as [|fuel IH]; intros fillIdx palette H;
    destruct (Nat.le_gt_cases 5 (List.length palette)) as [Hge|Hlt];
    try (rewrite (fillLoop_done _ _ _ Hge);
         replace (5 - List.length palette)%nat with O by lia;
         cbn [seq map]; rewrite app_nil_r; reflexivity).
  - lia.
  - cbn [fillLoop]. apply Nat.ltb_lt in Hlt. rewrite Hlt. apply Nat.ltb_lt in Hlt.
    rewrite IH by (rewrite length_app; simpl; lia).
    rewrite length_app. cbn [List.length].
    replace (5 - List.length palette)%nat
      with (S (5 - (List.length palette + 1)))%nat by lia.
    cbn [seq map]. rewrite <- app_assoc. reflexivity.
Qed.

Lemma fill_from_zero (n : nat) :
  (n <= 5)%nat ->
  map (fun i => nth (i mod 5) defaultMorandi "") (seq 0 n) =
  firstn n defaultMorandi.
Proof.
  intros H.
  do 6 (destruct n as [|n]; [reflexivity|]). lia.
Qed.

Lemma getImageColors_sampled (imageData : list Pixel) :
  let picked := pickDistinct (sortedColors (quantize imageData)) in
  let filled := (picked ++ firstn (5 - List.length picked) defaultMorandi)%list in
  getImageColors (Sampled imageData) =
  Some (mkColors (nth_error filled 0) filled).
Proof.
  intros picked filled. unfold getImageColors. fold picked.
  rewrite fillLoop_spec by lia.
  rewrite fill_from_zero by lia. reflexivity.
Qed.

(** C1, amended.  When the image loads and a 2d context is available, the
    palette of the result has exactly five entries for every sample
    (whatever its pixels: one colour, all transparent, ...): the distinct
    colours that were picked, at most five, followed by the first entries
    of the fixed five-entry fallback list, and the dominant colour is its
    first entry.  When loading fails or no 2d context is available the
    result is the dominant colour "#e5e5e5" with an empty palette. *)
Theorem getImageColors_palette_five_when_sampled :
  (forall imageData : list Pixel,
      let picked := pickDistinct (sortedColors (quantize imageData)) in
      exists c, getImageColors (Sampled imageData) = Some c /\
        List.length (palette c) = 5%nat /\
        (List.length picked <= 5)%nat /\
        palette c = (picked ++ firstn (5 - List.length picked) defaultMorandi)%list /\
        dominant c = nth_error (palette c) 0 /\
        dominant c <> None) /\
  getImageColors LoadError = Some (mkColors (Some "#e5e5e5") []) /\
  getImageColors NoContext = Some (mkColors (Some "#e5e5e5") []).
Proof.
  split; [|split; reflexivity].
  intros imageData picked.
  rewrite getImageColors_sampled. fold picked.
  pose proof (pickDistinct_length (sortedColors (quantize imageData))) as Hle.
  fold picked in Hle.
  assert (Hlen : List.length (picked ++ firstn (5 - List.length picked) defaultMorandi)%list = 5%nat).
  { rewrite length_app, length_firstn. simpl List.length. lia. }
  eexists. split; [reflexivity|]. cbn [palette dominant].
  split; [assumption|]. split; [assumption|]. split; [reflexivity|].
  split; [reflexivity|].
  destruct (picked ++ firstn (5 - List.length picked) defaultMorandi)%list;
    [discriminate Hlen | discriminate].
Qed.

(** C1, as stated, fails on a decode failure: the palette is empty. *)
Lemma getImageColors_decode_failure_empty :
  ~ (forall src : ImageLoad,
        exists c, getImageColors src = Some c /\
                  List.length (palette c) = 5%nat).
Proof.
  intros H. destruct (H LoadError) as (c & E & Hlen).
  simpl in E. injection E as <-. simpl in Hlen. discriminate.
Qed.

(** *** Morandi transform *)

Lemma max3_ub (a b c : Q) : a <= max3 a b c /\ b <= max3 a b c /\ c <= max3 a b c.
Proof.
  unfold max3.
  pose proof (Q.le_max_l (Qmax a b) c). pose proof (Q.le_max_r (Qmax a b) c).
  pose proof (Q.le_max_l a b). pose proof (Q.le_max_r a b).
  repeat split; lra.
Qed.

Lemma min3_lb (a b c : Q) : min3 a b c <= a /\ min3 a b c <= b /\ min3 a b c <= c.
Proof.
  unfold min3.
  pose proof (Q.le_min_l (Qmin a b) c). pose proof (Q.le_min_r (Qmin a b) c).
  pose proof (Q.le_min_l a b). pose proof (Q.le_min_r a b).
  repeat split; lra.
Qed.

Lemma max3_cases (a b c : Q) :
  max3 a b c == a \/ max3 a b c == b \/ max3 a b c == c.
Proof.
  unfold max3.
  destruct (Q.max_spec (Qmax a b) c) as [[_ E]|[_ E]].
  - right. right. exact E.
  - destruct (Q.max_spec a b) as [[_ E']|[_ E']].
    + right. left. rewrite E. exact E'.
    + left. rewrite E. exact E'.
Qed.

Lemma min3_cases (a b c : Q) :
  min3 a b c == a \/ min3 a b c == b \/ min3 a b c == c.
Proof.
  unfold min3.
  destruct (Q.min_spec (Qmin a b) c) as [[_ E]|[_ E]].
  - destruct (Q.min_spec a b) as [[_ E']|[_ E']].
    + left. rewrite E. exact E'.
    + right. left. rewrite E. exact E'.
  - right. right. exact E.
Qed.

Lemma channel_unit (c : Z) :
  (0 <= c <= 255)%Z -> 0 <= inject_Z c / 255 /\ inject_Z c / 255 <= 1.
Proof.
  intros [H0 H1].
  rewrite Zle_Qle in H0, H1.
  change (inject_Z 0) with 0 in H0. change (inject_Z 255) with 255 in H1.
  split.
  - apply Qle_shift_div_l; [reflexivity|]. lra.
  - apply Qle_shift_div_r; [reflexivity|]. lra.
Qed.

(** Saturation and lightness computed by [rgbToHsl] on channels within
    0..255 are not negative, and the lightness is at most 1. *)
Lemma rgbToHsl_range (r g b : Z) :
  (0 <= r <= 255)%Z -> (0 <= g <= 255)%Z -> (0 <= b <= 255)%Z ->
  let '(h, s, l) := rgbToHsl (inject_Z r) (inject_Z g) (inject_Z b) in
  0 <= s /\ 0 <= l /\ l <= 1.
Proof.
  intros Hr Hg Hb. unfold rgbToHsl.
  destruct (channel_unit r Hr) as [Hr0 Hr1].
  destruct (channel_unit g Hg) as [Hg0 Hg1].
  destruct (channel_unit b Hb) as [Hb0 Hb1].
  set (r' := inject_Z r / 255) in *.
  set (g' := inject_Z g / 255) in *.
  set (b' := inject_Z b / 255) in *.
  destruct (max3_ub r' g' b') as (U1 & U2 & U3).
  destruct (min3_lb r' g' b') as (L1 & L2 & L3).
  assert (HM1 : max3 r' g' b' <= 1)
    by (destruct (max3_cases r' g' b') as [E|[E|E]]; rewrite E; assumption).
  assert (Hm0 : 0 <= min3 r' g' b')
    by (destruct (min3_cases r' g' b') as [E|[E|E]]; rewrite E; assumption).
  set (M := max3 r' g' b') in *. set (m := min3 r' g' b') in *.
  assert (Hl : 0 <= (M + m) / 2 /\ (M + m) / 2 <= 1).
  { split; [apply Qle_shift_div_l | apply Qle_shift_div_r];
      try reflexivity; lra. }
  destruct (Qeq_bool M m) eqn:E.
  - split; [lra|exact Hl].
  - apply Qeq_bool_neq in E.
    assert (Hd : m < M).
    { destruct (Qlt_le_dec m M); [assumption|]. exfalso. apply E. lra. }
    split; [|exact Hl].
    destruct (Qlt_le_dec (1 # 2) ((M + m) / 2)).
    + apply Qle_shift_div_l; lra.
    + apply Qle_shift_div_l; lra.
Qed.

Lemma newS_range (s : Q) : 0 <= s -> (5 # 100) <= newS s /\ newS s <= (15 # 100).
Proof.
  intros H. unfold newS.
  destruct (Q.min_spec s (1 # 2)) as [[? E]|[? E]]; rewrite E; split; lra.
Qed.

Lemma newL_range (l : Q) : 0 <= l -> (75 # 100) <= newL l /\ newL l <= (85 # 100).
Proof.
  intros H. unfold newL.
  destruct (Q.min_spec l 1) as [[? E]|[? E]]; rewrite E; split; lra.
Qed.

Lemma lerp_between (p q k : Q) :
  p <= q -> 0 <= k -> k <= 1 ->
  p <= p + (q - p) * k /\ p + (q - p) * k <= q.
Proof.
  intros Hpq H0 H1.
  assert (A : 0 <= (q - p) * k) by (apply Qmult_le_0_compat; lra).
  assert (B : 0 <= (q - p) * (1 - k)) by (apply Qmult_le_0_compat; lra).
  split; [lra|].
  assert (E : q - (p + (q - p) * k) == (q - p) * (1 - k)) by ring.
  lra.
Qed.

Ltac qconsts :=
  change (1 / 6) with (1 # 6) in *; change (1 / 2) with (1 # 2) in *;
  change (2 / 3) with (2 # 3) in *; change (1 / 3) with (1 # 3) in *.

Ltac hue2rgb_cases :=
  unfold hue2rgb; qconsts;
  destruct (Qlt_le_dec _ 0); destruct (Qlt_le_dec 1 _);
  destruct (Qlt_le_dec _ (1 # 6)); try destruct (Qlt_le_dec _ (1 # 2));
  try destruct (Qlt_le_dec _ (2 # 3)); try (exfalso; lra).

Lemma hue2rgb_between (p q t : Q) :
  p <= q -> -(1) <= t -> t <= 2 ->
  p <= hue2rgb p q t /\ hue2rgb p q t <= q.
Proof.
  intros Hpq H1 H2. hue2rgb_cases; try (split; lra).
  all: match goal with
    | |- _ <= ?a + (?b - ?a) * 6 * ?u /\ _ =>
        assert (E : a + (b - a) * 6 * u == a + (b - a) * (6 * u)) by ring;
        rewrite E; clear E; apply lerp_between; lra
    | |- _ <= ?a + (?b - ?a) * ?u * 6 /\ _ =>
        assert (E : a + (b - a) * u * 6 == a + (b - a) * (u * 6)) by ring;
        rewrite E; clear E; apply lerp_between; lra
    end.
Qed.

Lemma hue2rgb_top (p q t : Q) :
  ((1 # 6) <= t /\ t < (1 # 2)) \/ (1 + (1 # 6) <= t /\ t < 1 + (1 # 2)) ->
  hue2rgb p q t == q.
Proof. intros H. hue2rgb_cases; reflexivity. Qed.

Lemma hue2rgb_bottom (p q t : Q) :
  ((2 # 3) <= t /\ t <= 1) \/ (- (1 # 3) <= t /\ t < 0) ->
  hue2rgb p q t == p.
Proof. intros H. hue2rgb_cases; reflexivity. Qed.

(** Of the three channels of [hslToRgb], one is [q] and one is [p], and
    all lie between them. *)
Lemma hue_channels (p q h : Q) :
  p <= q -> 0 <= h -> h < 1 ->
  let c1 := hue2rgb p q (h + 1 / 3) in
  let c2 := hue2rgb p q h in
  let c3 := hue2rgb p q (h - 1 / 3) in
  max3 c1 c2 c3 == q /\ min3 c1 c2 c3 == p.
Proof.
  intros Hpq H0 H1 c1 c2 c3. qconsts.
  destruct (hue2rgb_between p q (h + (1 # 3)) Hpq) as [A1 B1]; try lra.
  destruct (hue2rgb_between p q h Hpq) as [A2 B2]; try lra.
  destruct (hue2rgb_between p q (h - (1 # 3)) Hpq) as [A3 B3]; try lra.
  fold c1 in A1, B1. fold c2 in A2, B2. fold c3 in A3, B3.
  destruct (max3_ub c1 c2 c3) as (U1 & U2 & U3).
  destruct (min3_lb c1 c2 c3) as (L1 & L2 & L3).
  assert (HM : max3 c1 c2 c3 <= q)
    by (destruct (max3_cases c1 c2 c3) as [E|[E|E]]; rewrite E; assumption).
  assert (Hm : p <= min3 c1 c2 c3)
    by (destruct (min3_cases c1 c2 c3) as [E|[E|E]]; rewrite E; assumption).
  assert (Top : c1 == q \/ c2 == q \/ c3 == q).
  { destruct (Qlt_le_dec h (1 # 6)).
    - left. apply hue2rgb_top. lra.
    - destruct (Qlt_le_dec h (1 # 2)).
      + right. left. apply hue2rgb_top. lra.
      + destruct (Qlt_le_dec h (5 # 6)).
        * right. right. apply hue2rgb_top. lra.
        * left. apply hue2rgb_top. lra. }
  assert (Bot : c1 == p \/ c2 == p \/ c3 == p).
  { destruct (Qlt_le_dec h (1 # 3)).
    - right. right. apply hue2rgb_bottom. lra.
    - destruct (Qlt_le_dec h (2 # 3)).
      + left. apply hue2rgb_bottom. lra.
      + right. left. apply hue2rgb_bottom. lra. }
  split.
  - destruct Top as [E|[E|E]]; rewrite <- E in *; lra.
  - destruct Bot as [E|[E|E]]; rewrite <- E in *; lra.
Qed.

Lemma ratio_bounds (x d : Q) :
  0 < d -> - d <= x -> x <= d ->
  - (1) <= x / d /\ x / d <= 1 /\ (x < 0 -> x / d < 0) /\ (0 <= x -> 0 <= x / d).
Proof.
  intros Hd H1 H2. repeat split.
  - apply Qle_shift_div_l; [assumption|lra].
  - apply Qle_shift_div_r; [assumption|lra].
  - intros H. apply Qlt_shift_div_r; [assumption|lra].
  - intros H. apply Qle_shift_div_l; [assumption|lra].
Qed.

(** The hue computed by [rgbToHsl] on channels within 0..255 lies in
    [0, 1). *)
Lemma rgbToHsl_hue_range (r g b : Z) :
  (0 <= r <= 255)%Z -> (0 <= g <= 255)%Z -> (0 <= b <= 255)%Z ->
  let '(h, s, l) := rgbToHsl (inject_Z r) (inject_Z g) (inject_Z b) in
  0 <= h /\ h < 1.
Proof.
  intros Hr Hg Hb. unfold rgbToHsl.
  set (r' := inject_Z r / 255). set (g' := inject_Z g / 255).
  set (b' := inject_Z b / 255).
  destruct (max3_ub r' g' b') as (U1 & U2 & U3).
  destruct (min3_lb r' g' b') as (L1 & L2 & L3).
  set (M := max3 r' g' b') in *. set (m := min3 r' g' b') in *.
  destruct (Qeq_bool M m) eqn:E; [split; lra|].
  apply Qeq_bool_neq in E.
  assert (Hd : 0 < M - m).
  { destruct (Qlt_le_dec m M); [lra|]. exfalso. apply E. lra. }
  destruct (ratio_bounds (g' - b') (M - m) Hd) as (A1 & A2 & A3 & A4); try lra.
  destruct (ratio_bounds (b' - r') (M - m) Hd) as (B1 & B2 & _ & _); try lra.
  destruct (ratio_bounds (r' - g') (M - m) Hd) as (C1 & C2 & _ & _); try lra.
  assert (Hsix : forall x, 0 <= x -> x < 6 -> 0 <= x / 6 /\ x / 6 < 1).
  { intros x X0 X6. split.
    - apply Qle_shift_div_l; [reflexivity|lra].
    - apply Qlt_shift_div_r; [reflexivity|lra]. }
  apply Hsix;
    (destruct (Qeq_bool M r');
     [destruct (Qlt_le_dec g' b') as [q|q];
      [pose proof (A3 ltac:(lra)) | pose proof (A4 ltac:(lra))]
     |destruct (Qeq_bool M g'); [|destruct (Qeq_bool M b')]]); lra.
Qed.

Lemma round_half_bounds (x : Q) :
  inject_Z (round x) - (1 # 2) <= x /\ x < inject_Z (round x) + (1 # 2).
Proof.
  unfold round.
  pose proof (Qfloor_le (x + (1 # 2))) as H1.
  pose proof (Qlt_floor (x + (1 # 2))) as H2.
  rewrite inject_Z_plus in H2. change (inject_Z 1) with 1 in H2.
  split; lra.
Qed.

Lemma round_mono (x y : Q) : x <= y -> (round x <= round y)%Z.
Proof. intros H. unfold round. apply Qfloor_resp_le. lra. Qed.

Lemma round_comp (x y : Q) : x == y -> round x = round y.
Proof. intros H. unfold round. apply Qfloor_comp. rewrite H. reflexivity. Qed.

Lemma max3_eq (a b c x : Q) :
  a <= x -> b <= x -> c <= x -> a == x \/ b == x \/ c == x ->
  max3 a b c == x.
Proof.
  intros Ha Hb Hc H. destruct (max3_ub a b c) as (U1 & U2 & U3).
  assert (max3 a b c <= x)
    by (destruct (max3_cases a b c) as [E|[E|E]]; rewrite E; assumption).
  destruct H as [E|[E|E]]; rewrite <- E in *; lra.
Qed.

Lemma min3_eq (a b c x : Q) :
  x <= a -> x <= b -> x <= c -> a == x \/ b == x \/ c == x ->
  min3 a b c == x.
Proof.
  intros Ha Hb Hc H. destruct (min3_lb a b c) as (U1 & U2 & U3).
  assert (x <= min3 a b c)
    by (destruct (min3_cases a b c) as [E|[E|E]]; rewrite E; assumption).
  destruct H as [E|[E|E]]; rewrite <- E in *; lra.
Qed.

(** The three rounded channels of [hslToRgb] lie between the roundings of
    [255 p] and [255 q], and both roundings occur among them. *)
Lemma hslToRgb_extremes (h S L : Q) :
  0 <= h -> h < 1 -> 0 <= S -> S <= 1 -> (1 # 2) <= L -> L <= 1 ->
  let q := L + S - L * S in
  let p := 2 * L - q in
  let '(R, G, B) := hslToRgb h S L in
  let lo := round (p * 255) in
  let hi := round (q * 255) in
  (lo <= R <= hi)%Z /\ (lo <= G <= hi)%Z /\ (lo <= B <= hi)%Z /\
  (R = hi \/ G = hi \/ B = hi) /\ (R = lo \/ G = lo \/ B = lo).
Proof.
  intros Hh0 Hh1 HS0 HS1 HL0 HL1 q p. unfold hslToRgb.
  destruct (Qlt_le_dec L (1 # 2)) as [C|_]; [exfalso; lra|].
  fold q. fold p.
  assert (Hpq : p <= q).
  { assert (0 <= S * (1 - L)) by (apply Qmult_le_0_compat; lra).
    assert (E : q - p == 2 * (S * (1 - L))) by (unfold p, q; ring).
    lra. }
  clearbody q. clearbody p. qconsts.
  destruct (hue2rgb_between p q (h + (1 # 3)) Hpq) as [A1 B1]; try lra.
  destruct (hue2rgb_between p q h Hpq) as [A2 B2]; try lra.
  destruct (hue2rgb_between p q (h - (1 # 3)) Hpq) as [A3 B3]; try lra.
  pose proof (hue_channels p q h Hpq Hh0 Hh1) as [HM Hm]. qconsts.
  set (c1 := hue2rgb p q (h + (1 # 3))) in *.
  set (c2 := hue2rgb p q h) in *.
  set (c3 := hue2rgb p q (h - (1 # 3))) in *.
  assert (Hmono : forall c, p <= c -> c <= q ->
            (round (p * 255) <= round (c * 255) <= round (q * 255))%Z).
  { intros c Hc1 Hc2. split; apply round_mono; lra. }
  assert (Heq : forall c x, c == x -> round (c * 255) = round (x * 255)).
  { intros c x E. apply round_comp. rewrite E. reflexivity. }
  split; [apply Hmono; assumption|]. split; [apply Hmono; assumption|].
  split; [apply Hmono; assumption|]. split.
  - destruct (max3_cases c1 c2 c3) as [E|[E|E]]; rewrite HM in E;
      symmetry in E; apply Heq in E; auto.
  - destruct (min3_cases c1 c2 c3) as [E|[E|E]]; rewrite Hm in E;
      symmetry in E; apply Heq in E; auto.
Qed.

Lemma div255_le (x y : Z) : (x <= y)%Z -> inject_Z x / 255 <= inject_Z y / 255.
Proof.
  intros H. rewrite Zle_Qle in H. unfold Qdiv.
  apply Qmult_le_compat_r; [assumption|discriminate].
Qed.

Lemma div255_eq (x y : Z) : x = y -> inject_Z x / 255 == inject_Z y / 255.
Proof. intros ->. reflexivity. Qed.

(** Saturation and lightness that [rgbToHsl] reads from three integer
    channels with minimum [lo] and maximum [hi], [lo < hi], in the light
    half of the range. *)
Lemma rgbToHsl_of_extremes (R G B lo hi : Z) :
  (lo <= R <= hi)%Z -> (lo <= G <= hi)%Z -> (lo <= B <= hi)%Z ->
  R = hi \/ G = hi \/ B = hi -> R = lo \/ G = lo \/ B = lo ->
  (lo < hi)%Z -> (255 < lo + hi)%Z -> (hi + lo < 510)%Z ->
  let '(h, s, l) := rgbToHsl (inject_Z R) (inject_Z G) (inject_Z B) in
  l == inject_Z (hi + lo) / 510 /\
  s == inject_Z (hi - lo) / inject_Z (510 - hi - lo).
Proof.
  intros HR HG HB Hhi Hlo Hlt Hsum Hsum2. unfold rgbToHsl.
  set (r' := inject_Z R / 255). set (g' := inject_Z G / 255).
  set (b' := inject_Z B / 255).
  assert (EM : max3 r' g' b' == inject_Z hi / 255).
  { apply max3_eq; try (apply div255_le; lia).
    destruct Hhi as [E|[E|E]]; [left|right; left|right; right];
      apply div255_eq; assumption. }
  assert (Em : min3 r' g' b' == inject_Z lo / 255).
  { apply min3_eq; try (apply div255_le; lia).
    destruct Hlo as [E|[E|E]]; [left|right; left|right; right];
      apply div255_eq; assumption. }
  set (M := max3 r' g' b') in *. set (m := min3 r' g' b') in *.
  assert (EM' : inject_Z hi == M * 255) by (rewrite EM; field).
  assert (Em' : inject_Z lo == m * 255) by (rewrite Em; field).
  rewrite Zlt_Qlt in Hlt, Hsum, Hsum2.
  rewrite inject_Z_plus in Hsum, Hsum2.
  change (inject_Z 255) with 255 in Hsum. change (inject_Z 510) with 510 in Hsum2.
  assert (El : (M + m) / 2 == inject_Z (hi + lo) / 510).
  { rewrite inject_Z_plus, EM', Em'. field. }
  destruct (Qeq_bool M m) eqn:E.
  - apply Qeq_bool_iff in E. exfalso. lra.
  - split; [exact El|].
    assert (El2 : (M + m) / 2 * 2 == M + m) by field.
    destruct (Qlt_le_dec (1 # 2) ((M + m) / 2)) as [C|C]; [|exfalso; lra].
    unfold Zminus. rewrite !inject_Z_plus, !inject_Z_opp, EM', Em'.
    change (inject_Z 510) with 510. field. lra.
Qed.

Lemma Zle_of_Qlt (a b : Z) : inject_Z a < inject_Z b + 1 -> (a <= b)%Z.
Proof.
  intros H. apply Z.lt_succ_r. rewrite Zlt_Qlt. unfold Z.succ.
  rewrite inject_Z_plus. exact H.
Qed.

Lemma toHex_prints_back (x : Z) : (0 <= x <= 255)%Z -> hexPrintsBack x = true.
Proof.
  intros H.
  assert (A : forallb hexPrintsBack (map Z.of_nat (seq 0 256)) = true)
    by (vm_compute; reflexivity).
  rewrite forallb_forall in A. apply A. apply in_map_iff.
  exists (Z.to_nat x). split; [lia|]. apply in_seq. lia.
Qed.

Lemma hexToRgb_printed (r g b : Z) :
  (0 <= r <= 255)%Z -> (0 <= g <= 255)%Z -> (0 <= b <= 255)%Z ->
  hexToRgb ("#" ++ toHex r ++ toHex g ++ toHex b) = Some (r, g, b).
Proof.
  intros Hr Hg Hb.
  pose proof (toHex_prints_back r Hr) as Pr.
  pose proof (toHex_prints_back g Hg) as Pg.
  pose proof (toHex_prints_back b Hb) as Pb.
  unfold hexPrintsBack in *.
  destruct (toHex r) as [|r1 [|r0 [|]]]; try discriminate.
  destruct (toHex g) as [|g1 [|g0 [|]]]; try discriminate.
  destruct (toHex b) as [|b1 [|b0 [|]]]; try discriminate.
  destruct (hexByte r1 r0) as [r'|] eqn:Er; try discriminate.
  destruct (hexByte g1 g0) as [g'|] eqn:Eg; try discriminate.
  destruct (hexByte b1 b0) as [b'|] eqn:Eb; try discriminate.
  apply Z.eqb_eq in Pr, Pg, Pb. subst.
  cbn [append]. unfold hexToRgb. cbn -[hexByte]. rewrite Er, Eg, Eb. reflexivity.
Qed.

(** What is read back from the printed Morandi colour: its lightness is
    within 1/510 of the lightness handed to the encoder, its saturation
    within [0.03, 0.17]. *)
Lemma morandi_read_back (h S L : Q) :
  0 <= h -> h < 1 ->
  (5 # 100) <= S -> S <= (15 # 100) -> (75 # 100) <= L -> L <= (85 # 100) ->
  exists h' s' l',
    hexToHsl (hslToHex h S L) = Some (h', s', l') /\
    L - (1 # 510) <= l' /\ l' <= L + (1 # 510) /\
    (3 # 100) <= s' /\ s' <= (17 # 100).
Proof.
  intros Hh0 Hh1 HS0 HS1 HL0 HL1.
  pose proof (hslToRgb_extremes h S L Hh0 Hh1) as X.
  unfold hslToHex. 
  destruct (hslToRgb h S L) as [[R G] B].
  specialize (X ltac:(lra) ltac:(lra) ltac:(lra) ltac:(lra)). cbv zeta in X.
  set (T := S * (1 - L)).
  assert (T0 : (5 # 100) * (1 - L) <= T)
    by (unfold T; apply Qmult_le_compat_r; lra).
  assert (T1 : T <= (15 # 100) * (1 - L))
    by (unfold T; apply Qmult_le_compat_r; lra).
  assert (Eq : L + S - L * S == L + T) by (unfold T; ring).
  assert (Ep : 2 * L - (L + S - L * S) == L - T) by (unfold T; ring).
  clearbody T.
  pose proof (round_half_bounds ((L + S - L * S) * 255)) as [Bq1 Bq2].
  pose proof (round_half_bounds ((2 * L - (L + S - L * S)) * 255)) as [Bp1 Bp2].
  set (hi := round ((L + S - L * S) * 255)) in *.
  set (lo := round ((2 * L - (L + S - L * S)) * 255)) in *.
  destruct X as (XR & XG & XB & Xhi & Xlo).
  assert (Bq1' : inject_Z hi - (1 # 2) <= (L + T) * 255) by (rewrite <- Eq; exact Bq1).
  assert (Bq2' : (L + T) * 255 < inject_Z hi + (1 # 2)) by (rewrite <- Eq; exact Bq2).
  assert (Bp1' : inject_Z lo - (1 # 2) <= (L - T) * 255) by (rewrite <- Ep; exact Bp1).
  assert (Bp2' : (L - T) * 255 < inject_Z lo + (1 # 2)) by (rewrite <- Ep; exact Bp2).
  clear Bq1 Bq2 Bp1 Bp2 Eq Ep.
  assert (Hlo : (181 <= lo)%Z)
    by (apply Zle_of_Qlt; change (inject_Z 181) with 181; lra).
  assert (Hhi : (hi <= 227)%Z)
    by (apply Zle_of_Qlt; change (inject_Z 227) with 227; lra).
  assert (Hlt : (lo < hi)%Z).
  { apply Z.le_succ_l. unfold Z.succ. apply Zle_of_Qlt.
    rewrite inject_Z_plus. change (inject_Z 1) with 1. lra. }
  unfold hexToHsl. rewrite hexToRgb_printed by lia.
  pose proof (rgbToHsl_of_extremes R G B lo hi XR XG XB Xhi Xlo Hlt
                ltac:(lia) ltac:(lia)) as Y.
  destruct (rgbToHsl (inject_Z R) (inject_Z G) (inject_Z B)) as [[h' s'] l'].
  destruct Y as [El Es].
  exists h', s', l'. split; [reflexivity|].
  assert (El' : l' * 510 == inject_Z hi + inject_Z lo)
    by (rewrite El, inject_Z_plus; field).
  split; [lra|]. split; [lra|].
  assert (EN : inject_Z (510 - hi - lo) == 510 - inject_Z hi - inject_Z lo).
  { unfold Zminus. rewrite !inject_Z_plus, !inject_Z_opp. reflexivity. }
  assert (ED : inject_Z (hi - lo) == inject_Z hi - inject_Z lo).
  { unfold Zminus. rewrite !inject_Z_plus, !inject_Z_opp. reflexivity. }
  rewrite Es, EN, ED. split.
  - apply Qle_shift_div_l; lra.
  - apply Qle_shift_div_r; lra.
Qed.



Lemma quantize_counts_midtone_pixels_witness :
  countPixel [] (mkPixel 60 60 60 255) =
  bump (binKey (mkPixel 60 60 60 255)) [].
Proof.
  apply (proj1 (proj2 quantize_counts_midtone_pixels) [] (mkPixel 60 60 60 255)).
  vm_compute. discriminate.
Defined.


End PaletteFacts.

(** ** Seeded mesh shuffle *)

Module MeshFacts.

Import Mesh.
Import Lra.
Local Open Scope R_scope.

(** *** Padding on small palettes *)

Example padded_three :
  padded ["#c5bfbf"; "#d1c1c1"; "#bdc6ce"] =
  Ok ["#c5bfbf"; "#d1c1c1"; "#bdc6ce"; "#c5bfbf"; "#c5bfbf"].
Proof. reflexivity. Qed.

Example padded_empty : padded [] = Ok fallbackPalette.
Proof. reflexivity. Qed.

Example padLoop_empty_array : padLoop 5 [] = Fault OutOfBounds.
Proof. reflexivity. Qed.

Lemma floor_bounds (x : R) : IZR (floor x) <= x < IZR (floor x) + 1.
Proof.
  unfold floor. destruct (base_Int_part x) as [H1 H2]. split; lra.
Qed.

Lemma random_unit (currentSeed : Z) :
  0 <= fst (random currentSeed) < 1.
Proof.
  unfold random. cbn [fst].
  pose proof (floor_bounds (sin (IZR currentSeed) * 10000)). lra.
Qed.

Lemma randomIndex_bounds (currentSeed : Z) (currentIndex : nat) :
  (0 < currentIndex)%nat ->
  (0 <= randomIndex currentSeed currentIndex < Z.of_nat currentIndex)%Z.
Proof.
  intros Hpos. unfold randomIndex.
  pose proof (random_unit currentSeed) as [H0 H1].
  set (r := fst (random currentSeed)) in *.
  assert (Hn : 0 < INR currentIndex) by (apply lt_0_INR; assumption).
  pose proof (floor_bounds (r * INR currentIndex)) as [F1 F2].
  assert (X0 : 0 <= r * INR currentIndex) by (apply Rmult_le_pos; lra).
  assert (X1 : r * INR currentIndex < INR currentIndex).
  { rewrite <- (Rmult_1_l (INR currentIndex)) at 2.
    apply Rmult_lt_compat_r; assumption. }
  rewrite INR_IZR_INZ in *.
  split.
  - apply Z.lt_succ_r. apply lt_IZR. rewrite succ_IZR. lra.
  - apply lt_IZR. lra.
Qed.

Lemma get_inside (colors : list string) (i : Z) :
  (0 <= i < Z.of_nat (List.length colors))%Z ->
  exists c, get colors i = Ok c /\ nth_error colors (Z.to_nat i) = Some c.
Proof.
  intros [H0 H1]. unfold get.
  destruct (Z.ltb_spec i 0) as [Hneg|_]; [lia|].
  destruct (nth_error colors (Z.to_nat i)) as [c|] eqn:E.
  - exists c. split; reflexivity.
  - apply nth_error_None in E. lia.
Qed.

Lemma set_length (colors : list string) (i : nat) (c : string) :
  List.length (set colors i c) = List.length colors.
Proof.
  revert i. induction colors as [|x rest IH]; intros [|i]; simpl;
    try reflexivity.
  rewrite IH. reflexivity.
Qed.

Lemma set_exchange (colors : list string) (j : nat) (a b : string) :
  nth_error colors j = Some b ->
  Permutation (b :: set colors j a) (a :: colors).
Proof.
  revert j. induction colors as [|x rest IH]; intros [|j]; simpl;
    try discriminate.
  - intros E. injection E as ->. apply perm_swap.
  - intros E. eapply perm_trans; [apply perm_swap|].
    eapply perm_trans; [apply perm_skip, IH, E|]. apply perm_swap.
Qed.

(** The destructuring swap of the shuffle leaves a permutation. *)
Lemma set_swap_perm (colors : list string) (i j : nat) (a b : string) :
  nth_error colors i = Some a -> nth_error colors j = Some b ->
  Permutation (set (set colors j a) i b) colors.
Proof.
  revert i j. induction colors as [|x rest IH]; intros [|i] [|j]; simpl;
    try discriminate.
  - intros E1 E2. injection E1 as ->. injection E2 as ->. apply Permutation_refl.
  - intros E1 E2. injection E1 as ->. apply set_exchange. assumption.
  - intros E1 E2. injection E2 as ->. apply set_exchange. assumption.
  - intros E1 E2. apply perm_skip. apply IH; assumption.
Qed.

Lemma shuffleLoop_perm (currentIndex : nat) :
  forall (currentSeed : Z) (colors : list string),
    (currentIndex <= List.length colors)%nat ->
    exists out, shuffleLoop currentIndex currentSeed colors = Ok out /\
                Permutation out colors /\
                List.length out = List.length colors.
Proof.
  induction currentIndex as [|ci IH]; intros currentSeed colors Hlen.
  - exists colors. split; [reflexivity|]. split; [apply Permutation_refl|reflexivity].
  - cbn [shuffleLoop].
    pose proof (randomIndex_bounds currentSeed (S ci) ltac:(lia)) as Hri.
    set (ri := randomIndex currentSeed (S ci)) in *.
    destruct (get_inside colors ri ltac:(lia)) as (a & Ea & Na).
    destruct (get_inside colors (Z.of_nat ci) ltac:(lia)) as (b & Eb & Nb).
    rewrite Nat2Z.id in Nb.
    rewrite Ea, Eb. cbn [bind].
    destruct (IH (snd (random currentSeed))
                 (set (set colors ci a) (Z.to_nat ri) b))
      as (out & Eo & Po & Lo).
    { rewrite !set_length. lia. }
    exists out. split; [exact Eo|]. split.
    + eapply perm_trans; [exact Po|]. apply set_swap_perm; assumption.
    + rewrite Lo, !set_length. reflexivity.
Qed.

Lemma padLoop_done (fuel : nat) (colors : list string) :
  (5 <= List.length colors)%nat -> padLoop fuel colors = Ok colors.
Proof.
  intros H. apply Nat.ltb_ge in H.
  destruct fuel; cbn [padLoop]; rewrite H; reflexivity.
Qed.

Lemma padLoop_repeat (fuel : nat) :
  forall (c : string) (rest : list string),
    (5 <= List.length (c :: rest) + fuel)%nat ->
    padLoop fuel (c :: rest) =
    Ok ((c :: rest) ++ repeat c (5 - List.length (c :: rest)))%list.
Proof.
  induction fuel as [|fuel IH]; intros c rest H;
    destruct (Nat.le_gt_cases 5 (List.length (c :: rest))) as [Hge|Hlt];
    try (rewrite (padLoop_done _ _ Hge);
         replace (5 - List.length (c :: rest))%nat with O by lia;
         cbn [repeat]; rewrite app_nil_r; reflexivity).
  - lia.
  - cbn [padLoop]. apply Nat.ltb_lt in Hlt. rewrite Hlt. apply Nat.ltb_lt in Hlt.
    rewrite Nat.Div0.mod_same. cbn [nth_error].
    change ((c :: rest) ++ [c])%list with (c :: (rest ++ [c]))%list.
    rewrite IH by (cbn [List.length] in *; rewrite length_app; cbn [List.length]; lia).
    f_equal. cbn [List.length] in *. rewrite length_app. cbn [List.length].
    replace (5 - S (List.length rest))%nat
      with (S (5 - S (List.length rest + 1)))%nat by lia.
    cbn [repeat app]. f_equal. rewrite <- app_assoc. reflexivity.
Qed.

Lemma Ok_inj (A : Type) (a b : A) : Ok a = Ok b -> a = b.
Proof. intros E. injection E as ->. reflexivity. Qed.

(** The padded copy: a palette of at least three colours followed by
    copies of its first colour up to five entries (the loop pushes
    [colors[colors.length % colors.length]], the entry at index 0), and
    the fallback palette otherwise. *)
Lemma padded_spec (palette : list string) :
  padded palette =
  Ok (if (3 <=? List.length palette)%nat
      then (palette ++ repeat (hd "" palette) (5 - List.length palette))%list
      else fallbackPalette).
Proof.
  unfold padded, chooseP.
  destruct (Nat.leb_spec 3 (List.length palette)) as [H|H].
  - destruct palette as [|c rest]; [simpl in H; lia|].
    rewrite padLoop_repeat by lia. reflexivity.
  - reflexivity.
Qed.

Lemma shuffled_perm (palette : list string) (seed : Z) :
  exists colors out,
    padded palette = Ok colors /\ shuffled palette seed = Ok out /\
    Permutation out colors /\ List.length out = List.length colors.
Proof.
  unfold shuffled. rewrite padded_spec. cbn [bind].
  set (colors := if (3 <=? List.length palette)%nat then _ else _).
  destruct (shuffleLoop_perm (List.length colors) seed colors (Nat.le_refl _))
    as (out & E & P & L).
  exists colors, out. split; [reflexivity|]. split; [exact E|].
  split; assumption.
Qed.

(** C4, amended.  The shuffle is a function of the palette and the seed.
    For a palette of at least three colours its result is a permutation
    of the palette padded, when it is shorter than five, to five entries
    by repeating colours of the palette; for a palette of fewer than
    three colours the result is a permutation of the fixed five-colour
    fallback palette of the mesh, whatever the input colours are. *)
Theorem shuffled_deterministic_permutation :
  (forall (p1 p2 : list string) (s1 s2 : Z),
      p1 = p2 -> s1 = s2 -> shuffled p1 s1 = shuffled p2 s2) /\
  (forall (palette : list string) (seed : Z),
      (3 <= List.length palette)%nat ->
      exists out extra,
        shuffled palette seed = Ok out /\
        Forall (fun c => In c palette) extra /\
        List.length (palette ++ extra)%list = Nat.max 5 (List.length palette) /\
        Permutation out (palette ++ extra)%list) /\
  (forall (palette : list string) (seed : Z),
      (List.length palette < 3)%nat ->
      exists out, shuffled palette seed = Ok out /\
        Permutation out fallbackPalette).
Proof.
  split; [intros p1 p2 s1 s2 -> ->; reflexivity|].
  split; intros palette seed H;
    destruct (shuffled_perm palette seed) as (colors & out & Ep & Es & P & _);
    rewrite padded_spec in Ep; apply Ok_inj in Ep; subst colors; exists out.
  - exists (repeat (hd "" palette) (5 - List.length palette)).
    split; [exact Es|]. split; [|split].
    + apply Forall_forall. intros c Hc. apply repeat_spec in Hc. subst c.
      destruct palette; [simpl in H; lia | left; reflexivity].
    + rewrite length_app, repeat_length. lia.
    + apply Nat.leb_le in H. rewrite H in P. exact P.
  - split; [exact Es|].
    apply Nat.leb_gt in H. rewrite H in P. exact P.
Qed.

(** C4, as stated, fails for a palette of two colours: the result is a
    permutation of the fallback palette and holds "#eef2ff", which no
    padding of the input by repetition contains. *)
Lemma shuffled_short_palette_not_padded_input :
  ~ (forall (palette : list string) (seed : Z),
        exists out extra,
          shuffled palette seed = Ok out /\
          Forall (fun c => In c palette) extra /\
          Permutation out (palette ++ extra)%list).
Proof.
  intros H.
  destruct (H ["#c5bfbf"; "#d1c1c1"] 1%Z) as (out & extra & Es & Hex & P).
  destruct (shuffled_perm ["#c5bfbf"; "#d1c1c1"] 1%Z)
    as (colors & out' & Ep & Es' & P' & _).
  rewrite Es in Es'. injection Es' as <-.
  rewrite padded_spec in Ep. apply Ok_inj in Ep. subst colors.
  cbn [List.length Nat.leb] in P'.
  assert (Hin : In "#eef2ff" (["#c5bfbf"; "#d1c1c1"] ++ extra)%list).
  { eapply Permutation_in; [exact P|].
    eapply Permutation_in; [apply Permutation_sym; exact P'|].
    left. reflexivity. }
  apply in_app_or in Hin. destruct Hin as [Hin|Hin].
  - destruct Hin as [E|[E|[]]]; discriminate.
  - rewrite Forall_forall in Hex. specialize (Hex _ Hin).
    destruct Hex as [E|[E|[]]]; discriminate.
Qed.

(** C10.  Every draw of the generator is the fractional part of
    [sin(state) * 10000], lies in [0, 1) and increments the state; every
    index [floor(random() * currentIndex)] is at least 0 and below
    [currentIndex]; the shuffle loop started at an index within the array
    makes no access out of bounds and returns an array of the same
    length; so does the whole shuffle on the padded palette. *)
Theorem shuffle_draws_and_indices_in_bounds :
  (forall seed : Z,
      fst (random seed) =
        sin (IZR seed) * 10000 - IZR (floor (sin (IZR seed) * 10000)) /\
      snd (random seed) = (seed + 1)%Z /\
      0 <= fst (random seed) < 1) /\
  (forall (seed : Z) (currentIndex : nat),
      (0 < currentIndex)%nat ->
      (0 <= randomIndex seed currentIndex < Z.of_nat currentIndex)%Z) /\
  (forall (currentIndex : nat) (seed : Z) (colors : list string),
      (currentIndex <= List.length colors)%nat ->
      exists out, shuffleLoop currentIndex seed colors = Ok out /\
                  List.length out = List.length colors) /\
  (forall (palette : list string) (seed : Z),
      exists colors out,
        padded palette = Ok colors /\ shuffled palette seed = Ok out /\
        List.length out = List.length colors).
Proof.
  split; [|split; [|split]].
  - intros seed. split; [reflexivity|]. split; [reflexivity|].
    apply random_unit.
  - exact randomIndex_bounds.
  - intros ci seed colors H.
    destruct (shuffleLoop_perm ci seed colors H) as (out & E & _ & L).
    exists out. split; assumption.
  - intros palette seed.
    destruct (shuffled_perm palette seed) as (colors & out & Ep & Es & _ & L).
    exists colors, out. repeat split; assumption.
Qed.

Lemma shuffled_deterministic_permutation_witness :
  exists out extra,
    shuffled ["#c5bfbf"; "#d1c1c1"; "#bdc6ce"] 1 = Ok out /\
    Forall (fun c => In c ["#c5bfbf"; "#d1c1c1"; "#bdc6ce"]) extra /\
    List.length (["#c5bfbf"; "#d1c1c1"; "#bdc6ce"] ++ extra)%list = 5%nat /\
    Permutation out (["#c5bfbf"; "#d1c1c1"; "#bdc6ce"] ++ extra)%list.
Proof.
  apply (proj1 (proj2 shuffled_deterministic_permutation)
           ["#c5bfbf"; "#d1c1c1"; "#bdc6ce"] 1%Z).
  simpl. lia.
Defined.

Lemma shuffle_draws_and_indices_in_bounds_witness :
  (0 <= randomIndex 1 5 < 5)%Z.
Proof.
  apply (proj1 (proj2 shuffle_draws_and_indices_in_bounds) 1%Z 5%nat). lia.
Defined.

End MeshFacts.

(** ** Shadow geometry *)

Module ShadowFacts.

Import Shadow.
Import Lra.
Local Open Scope R_scope.

(** [Math.round] returns the integer within one half of its argument,
    halves going up. *)
Lemma round_within_half (x : R) : IZR (round x) - / 2 <= x < IZR (round x) + / 2.
Proof.
  unfold round. destruct (base_Int_part (x + / 2)) as [H1 H2]. split; lra.
Qed.

Lemma round_unique (x : R) (z : Z) :
  IZR z - / 2 <= x < IZR z + / 2 -> round x = z.
Proof.
  intros [H1 H2]. unfold round. symmetry. apply Int_part_spec. split; lra.
Qed.






End ShadowFacts.

(** ** Further properties of the colour extraction *)

Module ExtractionFacts.

Import Palette Extraction PaletteFacts.
Import Lqa.
Local Open Scope Q_scope.

Lemma lookup_None_keys (k : Key) (cc : Counts) :
  lookup k cc = None <-> ~ In k (keys cc).
Proof.
  unfold keys. induction cc as [|[k0 n] rest IH]; simpl.
  - tauto.
  - destruct (key_eqb k0 k) eqn:E.
    + apply key_eqb_eq in E. split; [discriminate|]. intros H. exfalso. auto.
    + split.
      * intros H [E'|H']; [subst; rewrite key_eqb_refl in E; discriminate|].
        apply IH in H. contradiction.
      * intros H. apply IH. tauto.
Qed.

Lemma lookup_Some_keys (k : Key) (cc : Counts) (n : nat) :
  lookup k cc = Some n -> In k (keys cc).
Proof.
  unfold keys. induction cc as [|[k0 n0] rest IH]; simpl; [discriminate|].
  destruct (key_eqb k0 k) eqn:E.
  - apply key_eqb_eq in E. auto.
  - auto.
Qed.

Lemma keys_bump (key : Key) (cc : Counts) :
  keys (bump key cc) =
  match lookup key cc with
  | Some _ => keys cc
  | None => (keys cc ++ [key])%list
  end.
Proof.
  unfold keys. induction cc as [|[k0 n] rest IH]; simpl.
  - reflexivity.
  - destruct (key_eqb k0 key) eqn:E; simpl; [reflexivity|].
    rewrite IH. destruct (lookup key rest); reflexivity.
Qed.

Lemma total_bump (key : Key) (cc : Counts) : total (bump key cc) = S (total cc).
Proof.
  unfold total. induction cc as [|[k0 n] rest IH]; cbn [bump fold_right snd].
  - reflexivity.
  - destruct (key_eqb k0 key); cbn [fold_right snd]; [lia|]. rewrite IH. lia.
Qed.

Lemma keys_bump_inv (key k : Key) (cc : Counts) :
  In k (keys (bump key cc)) <-> In k (keys cc) \/ k = key.
Proof.
  rewrite keys_bump. destruct (lookup key cc) eqn:E.
  - split; [auto|]. intros [H | ->]; [assumption|].
    apply (lookup_Some_keys _ _ _ E).
  - rewrite in_app_iff. simpl. split.
    + intros [H|[<-|[]]]; auto.
    + intros [H | ->]; auto.
Qed.

Lemma keys_bump_NoDup (key : Key) (cc : Counts) :
  NoDup (keys cc) -> NoDup (keys (bump key cc)).
Proof.
  intros H. rewrite keys_bump. destruct (lookup key cc) eqn:E; [assumption|].
  apply lookup_None_keys in E.
  apply NoDup_app; [assumption | constructor; [intros []|constructor] |].
  intros k Hk [<-|[]]. contradiction.
Qed.

Lemma fold_countPixel_invariants (imageData : list Pixel) (cc : Counts) :
  NoDup (keys cc) ->
  NoDup (keys (fold_left countPixel imageData cc)) /\
  total (fold_left countPixel imageData cc) =
    (total cc + List.length (filter counted imageData))%nat /\
  (forall k, In k (keys (fold_left countPixel imageData cc)) <->
             In k (keys cc) \/
             exists px, In px imageData /\ counted px = true /\ binKey px = k).
Proof.
  revert cc. induction imageData as [|px rest IH]; intros cc Hnd.
  - cbn [fold_left filter List.length]. split; [assumption|].
    split; [rewrite Nat.add_0_r; reflexivity|].
    intros k. split; [auto|]. intros [H|(px & [] & _)]. assumption.
  - cbn [fold_left filter]. rewrite countPixel_counted.
    destruct (counted px) eqn:Ec.
    + destruct (IH (bump (binKey px) cc) (keys_bump_NoDup _ _ Hnd))
        as (I1 & I2 & I3).
      split; [assumption|]. split; [rewrite I2, total_bump; cbn [List.length]; lia|].
      intros k. rewrite I3, keys_bump_inv. split.
      * intros [[H | ->]|(px' & Hin & Hc & Hk)].
        -- left. assumption.
        -- right. exists px. repeat split; [left; reflexivity|assumption].
        -- right. exists px'. repeat split; [right|..]; assumption.
      * intros [H|(px' & [<-|Hin] & Hc & Hk)].
        -- left. left. assumption.
        -- left. right. symmetry. assumption.
        -- right. exists px'. repeat split; assumption.
    + destruct (IH cc Hnd) as (I1 & I2 & I3).
      split; [assumption|]. split; [assumption|].
      intros k. rewrite I3. split.
      * intros [H|(px' & Hin & Hc & Hk)]; [left; assumption|].
        right. exists px'. repeat split; [right|..]; assumption.
      * intros [H|(px' & [<-|Hin] & Hc & Hk)]; [left; assumption| |].
        -- rewrite Ec in Hc. discriminate.
        -- right. exists px'. repeat split; assumption.
Qed.

Lemma quantize_keys_total (imageData : list Pixel) :
  NoDup (keys (quantize imageData)) /\
  total (quantize imageData) = List.length (filter counted imageData) /\
  (forall k, In k (keys (quantize imageData)) <->
             exists px, In px imageData /\ counted px = true /\ binKey px = k).
Proof.
  destruct (fold_countPixel_invariants imageData [] (NoDup_nil _))
    as (I1 & I2 & I3).
  split; [exact I1|]. split; [exact I2|].
  intros k. rewrite (I3 k). split; [intros [[]|H]; exact H | auto].
Qed.

(** X1.  The colour counts built by the sampling loop never hold a key
    twice, their counts add up to the number of pixels that got past the
    three filters, and a key is present exactly when it is the bin of such
    a pixel. *)
Theorem quantize_map_invariants (imageData : list Pixel) :
  NoDup (keys (quantize imageData)) /\
  total (quantize imageData) = List.length (filter counted imageData) /\
  (forall k, In k (keys (quantize imageData)) <->
             exists px, In px imageData /\ counted px = true /\ binKey px = k).
Proof. exact (quantize_keys_total imageData). Qed.

Lemma quantize_map_invariants_witness :
  exists px,
    In px [mkPixel 200 10 10 255; mkPixel 0 0 0 255] /\
    counted px = true /\ binKey px = (192, 0, 0)%Z.
Proof.
  apply (proj1 (proj2 (proj2 (quantize_map_invariants
                                [mkPixel 200 10 10 255; mkPixel 0 0 0 255]))
                      (192, 0, 0)%Z)).
  left. reflexivity.
Defined.

Lemma binLevel_of_byte (c : Z) : (0 <= c <= 255)%Z -> In (c / bin * bin)%Z binLevels.
Proof.
  intros H. unfold binLevels, bin. apply in_map_iff.
  exists (Z.to_nat (c / 32)).
  assert (0 <= c / 32 < 8)%Z.
  { split; [apply Z.div_pos; lia|apply Z.div_lt_upper_bound; lia]. }
  split; [rewrite Z2Nat.id; lia|]. apply in_seq. lia.
Qed.

Lemma binKey_of_byte (px : Pixel) : bytePixel px -> In (binKey px) allKeys.
Proof.
  intros (Hr & Hg & Hb & _). unfold allKeys, binKey. apply in_map_iff.
  exists ((red px / bin * bin)%Z, (green px / bin * bin)%Z, (blue px / bin * bin)%Z).
  split; [reflexivity|].
  apply in_prod; [apply in_prod|]; apply binLevel_of_byte; assumption.
Qed.

(** X2.  On a sample of byte pixels every key is made of channel values
    among 0, 32, ..., 224, and the counts hold at most 512 bins. *)
Theorem quantize_at_most_512_bins (imageData : list Pixel) :
  Forall bytePixel imageData ->
  (forall r g b, In (r, g, b) (keys (quantize imageData)) ->
                 In r binLevels /\ In g binLevels /\ In b binLevels) /\
  (List.length (quantize imageData) <= 512)%nat.
Proof.
  intros Hb. destruct (quantize_keys_total imageData) as (Hnd & _ & Hk).
  rewrite Forall_forall in Hb.
  assert (Hincl : incl (keys (quantize imageData)) allKeys).
  { intros k Hin. apply Hk in Hin. destruct Hin as (px & Hpx & _ & <-).
    apply binKey_of_byte, Hb, Hpx. }
  split.
  - intros r g b Hin. apply Hk in Hin. destruct Hin as (px & Hpx & _ & E).
    destruct (Hb px Hpx) as (Hr & Hg & Hbl & _).
    unfold binKey in E. injection E as <- <- <-.
    repeat split; apply binLevel_of_byte; assumption.
  - pose proof (NoDup_incl_length Hnd Hincl) as L.
    unfold keys in L. rewrite length_map in L.
    replace (List.length allKeys) with 512%nat in L by (vm_compute; reflexivity).
    exact L.
Qed.

Lemma quantize_at_most_512_bins_witness :
  (List.length (quantize [mkPixel 200 10 10 255; mkPixel 90 90 90 255]) <= 512)%nat.
Proof.
  apply (quantize_at_most_512_bins [mkPixel 200 10 10 255; mkPixel 90 90 90 255]).
  repeat constructor; cbn; lia.
Defined.

(** *** Sorting by frequency and the dominant colour *)

Lemma insertDesc_perm (e : Key * nat) (l : Counts) :
  Permutation (insertDesc e l) (e :: l).
Proof.
  induction l as [|x xs IH]; cbn [insertDesc]; [apply Permutation_refl|].
  destruct (snd x <=? snd e)%nat; [apply Permutation_refl|].
  eapply perm_trans; [apply perm_skip, IH|apply perm_swap].
Qed.

Lemma sortDesc_perm (cc : Counts) : Permutation (sortDesc cc) cc.
Proof.
  induction cc as [|e rest IH]; cbn; [constructor|].
  eapply perm_trans; [apply insertDesc_perm|apply perm_skip, IH].
Qed.

Lemma insertDesc_sorted (e : Key * nat) (l : Counts) :
  StronglySorted (fun x y => (snd y <= snd x)%nat) l ->
  StronglySorted (fun x y => (snd y <= snd x)%nat) (insertDesc e l).
Proof.
  induction l as [|x xs IH]; cbn [insertDesc]; intros H.
  - constructor; constructor.
  - inversion H as [|? ? Hs Hall]; subst.
    destruct (Nat.leb_spec (snd x) (snd e)) as [Hle|Hgt].
    + constructor; [assumption|]. constructor; [assumption|].
      rewrite Forall_forall in *. intros y Hy. specialize (Hall y Hy). lia.
    + constructor; [apply IH; assumption|].
      rewrite Forall_forall in *. intros y Hy.
      apply (Permutation_in _ (insertDesc_perm e xs)) in Hy.
      destruct Hy as [<-|Hy]; [lia|apply Hall; assumption].
Qed.

Lemma sortDesc_sorted (cc : Counts) :
  StronglySorted (fun x y => (snd y <= snd x)%nat) (sortDesc cc).
Proof.
  induction cc as [|e rest IH]; cbn; [constructor|].
  apply insertDesc_sorted, IH.
Qed.

Lemma pickLoop_prefix (rest palette : list string) :
  exists more, pickLoop palette rest = (palette ++ more)%list.
Proof.
  revert palette. induction rest as [|c rest IH]; intros palette;
    cbn [pickLoop].
  - exists []. rewrite app_nil_r. reflexivity.
  - destruct (5 <=? List.length palette)%nat.
    + exists []. rewrite app_nil_r. reflexivity.
    + destruct (forallb _ palette); [|apply IH].
      destruct (IH (palette ++ [c])%list) as (more & E).
      exists (c :: more). rewrite E, <- app_assoc. reflexivity.
Qed.

Lemma distinct_from_all (c : string) (palette : list string) :
  forallb (fun p => isDistinct p c) palette = true <-> ~ In c palette.
Proof.
  rewrite forallb_forall. unfold isDistinct. split.
  - intros H Hin. specialize (H c Hin). rewrite String.eqb_refl in H. discriminate.
  - intros H p Hp. destruct (String.eqb_spec p c) as [->|]; [contradiction|reflexivity].
Qed.

Lemma pickLoop_invariants (rest palette : list string) :
  NoDup palette ->
  NoDup (pickLoop palette rest) /\
  (forall c, In c (pickLoop palette rest) -> In c palette \/ In c rest) /\
  ((List.length (pickLoop palette rest) < 5)%nat ->
   forall c, In c rest -> In c (pickLoop palette rest)).
Proof.
  revert palette. induction rest as [|c rest IH]; intros palette Hnd;
    cbn [pickLoop].
  - split; [assumption|]. split; [auto|]. intros _ c [].
  - destruct (Nat.leb_spec 5 (List.length palette)) as [Hfull|Hroom].
    + split; [assumption|]. split; [auto|]. intros Hlt. lia.
    + destruct (forallb (fun p => isDistinct p c) palette) eqn:Ed.
      * apply distinct_from_all in Ed.
        assert (Hnd' : NoDup (palette ++ [c])%list).
        { apply NoDup_app; [assumption|constructor; [intros []|constructor]|].
          intros x Hx [<-|[]]. contradiction. }
        destruct (IH _ Hnd') as (I1 & I2 & I3).
        split; [assumption|]. split.
        -- intros x Hx. apply I2 in Hx. rewrite in_app_iff in Hx. simpl in *. tauto.
        -- intros Hlt x [<-|Hx]; [|apply I3; assumption].
           destruct (pickLoop_prefix rest (palette ++ [c])%list) as (more & E).
           rewrite E, !in_app_iff. simpl. tauto.
      * destruct (IH _ Hnd) as (I1 & I2 & I3).
        split; [assumption|]. split.
        -- intros x Hx. apply I2 in Hx. simpl. tauto.
        -- intros Hlt x [<-|Hx]; [|apply I3; assumption].
           destruct (pickLoop_prefix rest palette) as (more & E).
           rewrite E, in_app_iff. left.
           destruct (in_dec string_dec c palette) as [Hi|Hn]; [assumption|].
           apply distinct_from_all in Hn. rewrite Hn in Ed. discriminate.
Qed.

Lemma pickDistinct_facts (sorted : list string) :
  NoDup (pickDistinct sorted) /\
  (List.length (pickDistinct sorted) <= 5)%nat /\
  incl (pickDistinct sorted) sorted /\
  hd_error (pickDistinct sorted) = hd_error sorted /\
  ((List.length (pickDistinct sorted) < 5)%nat ->
   incl sorted (pickDistinct sorted)).
Proof.
  split; [|split; [apply pickDistinct_length|]];
    destruct sorted as [|c rest]; cbn [pickDistinct].
  - constructor.
  - apply pickLoop_invariants. constructor; [intros []|constructor].
  - split; [intros x []|]. split; [reflexivity|]. intros _ x [].
  - assert (Hnd : NoDup [c]) by (constructor; [intros []|constructor]).
    destruct (pickLoop_invariants rest [c] Hnd) as (_ & I2 & I3).
    destruct (pickLoop_prefix rest [c]) as (more & E).
    split; [|split].
    + intros x Hx. apply I2 in Hx. simpl in *. tauto.
    + rewrite E. reflexivity.
    + intros Hlt x [<-|Hx]; [rewrite E; left; reflexivity|].
      apply I3; assumption.
Qed.

(** X3.  The selection loop keeps pairwise distinct colours, at most five,
    all taken from the sorted list and starting with its first entry; and
    when it keeps fewer than five, every colour of the sorted list is
    among them. *)
Theorem pickDistinct_selection (sorted : list string) :
  NoDup (pickDistinct sorted) /\
  (List.length (pickDistinct sorted) <= 5)%nat /\
  incl (pickDistinct sorted) sorted /\
  hd_error (pickDistinct sorted) = hd_error sorted /\
  ((List.length (pickDistinct sorted) < 5)%nat ->
   incl sorted (pickDistinct sorted)).
Proof. exact (pickDistinct_facts sorted). Qed.

Lemma pickDistinct_selection_witness :
  incl ["#d1c1c1"; "#c5bfbf"; "#d1c1c1"]
       (pickDistinct ["#d1c1c1"; "#c5bfbf"; "#d1c1c1"]).
Proof.
  apply (proj2 (proj2 (proj2 (proj2
           (pickDistinct_selection ["#d1c1c1"; "#c5bfbf"; "#d1c1c1"]))))).
  cbn. lia.
Defined.

Lemma sortedColors_keyColor (cc : Counts) :
  sortedColors cc = map keyColor (keys (sortDesc cc)).
Proof.
  unfold sortedColors, keys. rewrite map_map. apply map_ext.
  intros [[[r g] b] n]. reflexivity.
Qed.

Lemma pickDistinct_head (c : string) (rest : list string) :
  exists more, pickDistinct (c :: rest) = c :: more.
Proof.
  cbn [pickDistinct]. destruct (pickLoop_prefix rest [c]) as (more & E).
  exists more. rewrite E. reflexivity.
Qed.

(** X4.  When at least one pixel is counted, the dominant colour is the
    Morandi colour of a bin whose count no other bin exceeds, and it is
    the first palette entry. *)
Theorem dominant_is_most_frequent_bin (imageData : list Pixel) :
  quantize imageData <> [] ->
  exists k n c,
    getImageColors (Sampled imageData) = Some c /\
    In (k, n) (quantize imageData) /\
    (forall k' n', In (k', n') (quantize imageData) -> (n' <= n)%nat) /\
    dominant c = Some (keyColor k) /\
    hd_error (palette c) = Some (keyColor k).
Proof.
  intros Hne. rewrite getImageColors_sampled. cbv zeta.
  rewrite sortedColors_keyColor.
  pose proof (sortDesc_perm (quantize imageData)) as P.
  pose proof (sortDesc_sorted (quantize imageData)) as S.
  destruct (sortDesc (quantize imageData)) as [|[k n] tl] eqn:E.
  - apply Permutation_nil in P. contradiction.
  - exists k, n. cbn [keys map fst].
    destruct (pickDistinct_head (keyColor k) (map keyColor (map fst tl)))
      as (more & Ep).
    unfold keys. rewrite Ep. eexists. split; [reflexivity|].
    split; [apply (Permutation_in _ P); left; reflexivity|].
    split; [|split; reflexivity].
    intros k' n' Hin. apply (Permutation_in _ (Permutation_sym P)) in Hin.
    inversion S as [|? ? _ Hall]; subst.
    destruct Hin as [Eq|Hin]; [injection Eq as <- <-; lia|].
    rewrite Forall_forall in Hall. apply (Hall _ Hin).
Qed.

Lemma dominant_is_most_frequent_bin_witness :
  exists k n c,
    getImageColors (Sampled [mkPixel 200 10 10 255; mkPixel 90 90 90 255;
                             mkPixel 201 11 11 255]) = Some c /\
    In (k, n) (quantize [mkPixel 200 10 10 255; mkPixel 90 90 90 255;
                         mkPixel 201 11 11 255]) /\
    (forall k' n', In (k', n') (quantize [mkPixel 200 10 10 255;
                                          mkPixel 90 90 90 255;
                                          mkPixel 201 11 11 255]) ->
                   (n' <= n)%nat) /\
    dominant c = Some (keyColor k) /\
    hd_error (palette c) = Some (keyColor k).
Proof.
  apply (dominant_is_most_frequent_bin
           [mkPixel 200 10 10 255; mkPixel 90 90 90 255; mkPixel 201 11 11 255]).
  vm_compute. discriminate.
Defined.

Lemma quantize_nothing_counted (imageData : list Pixel) :
  Forall (fun px => counted px = false) imageData <-> quantize imageData = [].
Proof.
  destruct (quantize_keys_total imageData) as (_ & _ & Hk). split.
  - intros H. rewrite Forall_forall in H.
    destruct (quantize imageData) as [|[k n] rest]; [reflexivity|exfalso].
    destruct (proj1 (Hk k) (or_introl eq_refl)) as (px & Hin & Hc & _).
    rewrite (H px Hin) in Hc. discriminate.
  - intros E. rewrite E in Hk. apply Forall_forall. intros px Hin.
    destruct (counted px) eqn:Ec; [exfalso|reflexivity].
    apply (proj2 (Hk (binKey px))). exists px. auto.
Qed.

(** X5.  A sample without any counted pixel (all transparent, too dark or
    too bright, or empty) yields exactly the fallback list as palette and
    its first entry as dominant colour; and only such a sample leaves the
    colour counts empty. *)
Theorem getImageColors_no_midtone_pixel (imageData : list Pixel) :
  (Forall (fun px => counted px = false) imageData <->
   quantize imageData = []) /\
  (Forall (fun px => counted px = false) imageData ->
   getImageColors (Sampled imageData) =
   Some (mkColors (Some "#e2e4e9") defaultMorandi)).
Proof.
  split; [apply quantize_nothing_counted|].
  intros H. apply quantize_nothing_counted in H.
  rewrite getImageColors_sampled, H. reflexivity.
Qed.

Lemma getImageColors_no_midtone_pixel_witness :
  getImageColors (Sampled [mkPixel 255 255 255 255; mkPixel 0 0 0 255;
                           mkPixel 120 120 120 0]) =
  Some (mkColors (Some "#e2e4e9") defaultMorandi).
Proof.
  apply (proj2 (getImageColors_no_midtone_pixel
                  [mkPixel 255 255 255 255; mkPixel 0 0 0 255;
                   mkPixel 120 120 120 0])).
  repeat constructor.
Defined.

Lemma binLevel_range (c : Z) : In c binLevels -> (0 <= c <= 255)%Z.
Proof.
  unfold binLevels, bin. intros H. apply in_map_iff in H.
  destruct H as (i & <- & Hi). apply in_seq in Hi. lia.
Qed.

Lemma quantize_at_most_512_bins_levels (imageData : list Pixel) :
  Forall bytePixel imageData ->
  forall r g b, In (r, g, b) (keys (quantize imageData)) ->
                (0 <= r <= 255)%Z /\ (0 <= g <= 255)%Z /\ (0 <= b <= 255)%Z.
Proof.
  intros Hb r g b Hin.
  destruct (quantize_keys_total imageData) as (_ & _ & Hk).
  destruct (proj1 (Hk (r, g, b)) Hin) as (px & Hpx & _ & E).
  rewrite Forall_forall in Hb. destruct (Hb px Hpx) as (Hr & Hg & Hbl & _).
  unfold binKey in E. injection E as <- <- <-.
  repeat split; apply binLevel_range, binLevel_of_byte; assumption.
Qed.

(** *** The filled palette has no repeated colour *)

Lemma keyColor_read_back (r g b : Z) :
  (0 <= r <= 255)%Z -> (0 <= g <= 255)%Z -> (0 <= b <= 255)%Z ->
  exists h' s' l',
    hexToHsl (keyColor (r, g, b)) = Some (h', s', l') /\
    l' <= (85 # 100) + (1 # 510).
Proof.
  intros Hr Hg Hb. unfold keyColor, toMorandi.
  pose proof (rgbToHsl_range r g b Hr Hg Hb) as H.
  pose proof (rgbToHsl_hue_range r g b Hr Hg Hb) as Hh.
  destruct (rgbToHsl (inject_Z r) (inject_Z g) (inject_Z b)) as [[h s] l].
  destruct H as (Hs & Hl & _). destruct Hh as [Hh0 Hh1].
  destruct (newS_range s Hs) as [S0 S1]. destruct (newL_range l Hl) as [L0 L1].
  destruct (morandi_read_back h (newS s) (newL l) Hh0 Hh1 S0 S1 L0 L1)
    as (h' & s' & l' & E & _ & B2 & _).
  exists h', s', l'. split; [exact E|lra].
Qed.

Lemma keyColor_not_default (r g b : Z) :
  (0 <= r <= 255)%Z -> (0 <= g <= 255)%Z -> (0 <= b <= 255)%Z ->
  ~ In (keyColor (r, g, b)) defaultMorandi.
Proof.
  intros Hr Hg Hb Hin.
  destruct (keyColor_read_back r g b Hr Hg Hb) as (h' & s' & l' & E & Hl).
  unfold defaultMorandi in Hin.
  repeat (destruct Hin as [Hd|Hin];
          [rewrite <- Hd in E; vm_compute in E; injection E as _ _ <-;
           vm_compute in Hl; apply Hl; reflexivity|]).
  destruct Hin.
Qed.

Lemma firstn_default_NoDup (n : nat) : NoDup (firstn n defaultMorandi).
Proof.
  do 6 (destruct n as [|n];
        [repeat constructor; simpl; intuition discriminate|]).
  repeat constructor; simpl; intuition discriminate.
Qed.

Lemma firstn_In (A : Type) (n : nat) (l : list A) (x : A) :
  In x (firstn n l) -> In x l.
Proof.
  revert l. induction n as [|n IH]; intros [|y l]; simpl; try tauto.
  intros [->|H]; auto.
Qed.

(** X6.  On a sample of byte pixels the five palette colours are pairwise
    distinct, and each of them is the Morandi colour of a bin of the
    sample or an entry of the fallback list. *)
Theorem getImageColors_palette_distinct (imageData : list Pixel) :
  Forall bytePixel imageData ->
  exists c,
    getImageColors (Sampled imageData) = Some c /\
    NoDup (palette c) /\
    (forall x, In x (palette c) ->
       (exists k, In k (keys (quantize imageData)) /\ x = keyColor k) \/
       In x defaultMorandi).
Proof.
  intros Hb. rewrite getImageColors_sampled. cbv zeta.
  eexists. split; [reflexivity|]. cbn [palette].
  set (sorted := sortedColors (quantize imageData)).
  destruct (pickDistinct_facts sorted) as (Hnd & _ & Hincl & _).
  assert (Hsrc : forall x, In x sorted ->
            exists k, In k (keys (quantize imageData)) /\ x = keyColor k).
  { intros x Hx. unfold sorted in Hx. rewrite sortedColors_keyColor in Hx.
    apply in_map_iff in Hx. destruct Hx as (k & <- & Hk). exists k.
    split; [|reflexivity]. unfold keys in *.
    apply in_map_iff in Hk. destruct Hk as (e & <- & He).
    apply in_map. apply (Permutation_in _ (sortDesc_perm _) He). }
  split.
  - apply NoDup_app; [assumption|apply firstn_default_NoDup|].
    intros x Hx Hd. apply firstn_In in Hd.
    destruct (Hsrc x (Hincl x Hx)) as ([[r g] b] & Hk & ->).
    destruct (quantize_at_most_512_bins_levels imageData Hb r g b Hk)
      as (Hr & Hg & Hbl).
    revert Hd. apply keyColor_not_default; assumption.
  - intros x Hx. apply in_app_or in Hx. destruct Hx as [Hx|Hx].
    + left. apply Hsrc, Hincl, Hx.
    + right. apply (firstn_In _ _ _ _ Hx).
Qed.

Lemma getImageColors_palette_distinct_witness :
  exists c,
    getImageColors (Sampled [mkPixel 200 10 10 255; mkPixel 90 90 90 255]) =
      Some c /\
    NoDup (palette c) /\
    (forall x, In x (palette c) ->
       (exists k, In k (keys (quantize [mkPixel 200 10 10 255;
                                        mkPixel 90 90 90 255])) /\
                  x = keyColor k) \/
       In x defaultMorandi).
Proof.
  apply (getImageColors_palette_distinct
           [mkPixel 200 10 10 255; mkPixel 90 90 90 255]).
  repeat constructor; cbn; lia.
Defined.

Lemma keys_all_equal (k : Key) (l : list Key) :
  NoDup l -> (forall k', In k' l -> k' = k) -> In k l -> l = [k].
Proof.
  intros Hnd Hall Hin. destruct l as [|a [|b rest]].
  - destruct Hin.
  - rewrite (Hall a (or_introl eq_refl)). reflexivity.
  - exfalso. inversion Hnd as [|? ? Hn _]; subst. apply Hn.
    rewrite (Hall a (or_introl eq_refl)).
    rewrite <- (Hall b (or_intror (or_introl eq_refl))). left. reflexivity.
Qed.

(** X18.  When all counted pixels of the sample fall into one bin (a
    solid-colour image, for instance), the palette is the Morandi colour
    of that bin followed by the first four fallback colours, and that
    colour is the dominant one. *)
Theorem getImageColors_single_bin (imageData : list Pixel) (k : Key) :
  (exists px, In px imageData /\ counted px = true) ->
  (forall px, In px imageData -> counted px = true -> binKey px = k) ->
  getImageColors (Sampled imageData) =
  Some (mkColors (Some (keyColor k))
          (keyColor k :: firstn 4 defaultMorandi)).
Proof.
  intros (px0 & Hin0 & Hc0) Hall.
  destruct (quantize_keys_total imageData) as (Hnd & _ & Hk).
  assert (Ekeys : keys (quantize imageData) = [k]).
  { apply keys_all_equal; [assumption| |].
    - intros k' Hk'. apply Hk in Hk'. destruct Hk' as (px & Hin & Hc & <-).
      apply Hall; assumption.
    - apply Hk. exists px0. repeat split; try assumption.
      apply Hall; assumption. }
  rewrite getImageColors_sampled. cbv zeta.
  rewrite sortedColors_keyColor.
  assert (Es : keys (sortDesc (quantize imageData)) = [k]).
  { pose proof (sortDesc_perm (quantize imageData)) as P.
    apply (Permutation_map fst) in P. fold (keys (sortDesc (quantize imageData))) in P.
    fold (keys (quantize imageData)) in P. rewrite Ekeys in P.
    apply Permutation_sym, Permutation_length_1_inv in P. exact P. }
  rewrite Es. reflexivity.
Qed.

Lemma getImageColors_single_bin_witness :
  getImageColors (Sampled [mkPixel 200 10 10 255; mkPixel 255 255 255 255;
                           mkPixel 210 20 20 255]) =
  Some (mkColors (Some (keyColor (192, 0, 0)%Z))
          (keyColor (192, 0, 0)%Z :: firstn 4 defaultMorandi)).
Proof.
  apply (getImageColors_single_bin
           [mkPixel 200 10 10 255; mkPixel 255 255 255 255;
            mkPixel 210 20 20 255] (192, 0, 0)%Z).
  - exists (mkPixel 200 10 10 255). split; [left; reflexivity|reflexivity].
  - intros px [<-|[<-|[<-|[]]]]; intros H; try reflexivity; discriminate H.
Defined.

End ExtractionFacts.

(** ** Colour conversions: round trip and well-formed output *)

Module RoundTripFacts.

Import Palette PaletteFacts.
Import Lqa.
Local Open Scope Q_scope.

Lemma Qne_of_lt (x y : Q) : x < y -> ~ y == x.
Proof. intros H E. rewrite E in H. apply (Qlt_irrefl _ H). Qed.

(** The [q] and [p] that [hslToHex] computes from the saturation and
    lightness of [rgbToHsl] are the largest and the smallest channel. *)
Lemma hsl_pq (M m : Q) :
  0 <= m -> m < M -> M <= 1 ->
  let l := (M + m) / 2 in
  let s := if Qlt_le_dec (1 # 2) l then (M - m) / (2 - M - m)
           else (M - m) / (M + m) in
  let q := if Qlt_le_dec l (1 # 2) then l * (1 + s) else l + s - l * s in
  q == M /\ 2 * l - q == m.
Proof.
  intros H0 Hlt H1 l s q.
  assert (El : l * 2 == M + m) by (unfold l; field).
  assert (Hq : q == M).
  { unfold q, s. destruct (Qlt_le_dec (1 # 2) l) as [A|A];
      destruct (Qlt_le_dec l (1 # 2)) as [B|B]; try (exfalso; lra).
    - unfold l. field. lra.
    - unfold l. field. lra.
    - assert (E1 : M + m == 1) by lra.
      assert (E2 : (M - m) / (M + m) == M - m).
      { rewrite E1. field. }
      rewrite E2. assert (E3 : l == 1 # 2) by lra. rewrite E3. lra. }
  split; [exact Hq|]. lra.
Qed.

Lemma lerp_up (p q t d rho v : Q) :
  q - p == d -> rho * d == v -> 6 * t == rho ->
  p + (q - p) * 6 * t == p + v.
Proof.
  intros H1 H2 H3.
  assert (E : p + (q - p) * 6 * t == p + (6 * t) * (q - p)) by ring.
  rewrite E, H3, H1, H2. reflexivity.
Qed.

Lemma lerp_down (p q t d rho v : Q) :
  q - p == d -> rho * d == v -> 4 - 6 * t == rho ->
  p + (q - p) * ((2 # 3) - t) * 6 == p + v.
Proof.
  intros H1 H2 H3.
  assert (E : p + (q - p) * ((2 # 3) - t) * 6 == p + (4 - 6 * t) * (q - p)) by ring.
  rewrite E, H3, H1, H2. reflexivity.
Qed.

Lemma ratio_facts (v d : Q) :
  0 < d -> - d <= v -> v <= d ->
  (v / d) * d == v /\ (- v / d) * d == - v /\ - v / d == - (v / d) /\
  - (1) <= v / d /\ v / d <= 1 /\
  (v < 0 -> v / d < 0) /\ (0 <= v -> 0 <= v / d) /\
  (0 < v -> 0 < v / d) /\ (v <= 0 -> v / d <= 0) /\
  (v < d -> v / d < 1) /\ (- d < v -> - (1) < v / d).
Proof.
  intros Hd H1 H2.
  assert (Hd0 : ~ d == 0) by (apply Qne_of_lt; assumption).
  split; [field; assumption|]. split; [field; assumption|].
  split; [field; assumption|].
  split; [apply Qle_shift_div_l; [assumption|lra]|].
  split; [apply Qle_shift_div_r; [assumption|lra]|].
  split; [intros H; apply Qlt_shift_div_r; [assumption|lra]|].
  split; [intros H; apply Qle_shift_div_l; [assumption|lra]|].
  split; [intros H; apply Qlt_shift_div_l; [assumption|lra]|].
  split; [intros H; apply Qle_shift_div_r; [assumption|lra]|].
  split; [intros H; apply Qlt_shift_div_r; [assumption|lra]|].
  intros H; apply Qlt_shift_div_l; [assumption|lra].
Qed.

Ltac finish_channel d :=
  first
    [ lra
    | match goal with
      | Hr : ?rho * d == ?v |- ?p + (?q - ?p) * 6 * ?t == _ =>
          rewrite (lerp_up p q t d rho v) by lra; lra
      | Hr : ?rho * d == ?v |- ?p + (?q - ?p) * ((2 # 3) - ?t) * 6 == _ =>
          rewrite (lerp_down p q t d rho v) by lra; lra
      end ].

(** With [q] the largest and [p] the smallest of three channels that are
    not all equal, and the hue of [rgbToHsl], the three calls of
    [hue2rgb] return the three channels. *)
Lemma hue_roundtrip (x y z p q : Q) :
  ~ max3 x y z == min3 x y z ->
  q == max3 x y z -> p == min3 x y z ->
  let M := max3 x y z in
  let d := max3 x y z - min3 x y z in
  let H := if Qeq_bool M x then (y - z) / d + (if Qlt_le_dec y z then 6 else 0)
           else if Qeq_bool M y then (z - x) / d + 2
           else if Qeq_bool M z then (x - y) / d + 4
           else 0 in
  hue2rgb p q (H / 6 + 1 / 3) == x /\
  hue2rgb p q (H / 6) == y /\
  hue2rgb p q (H / 6 - 1 / 3) == z.
Proof.
  intros Hne Hq Hp. cbv zeta.
  destruct (max3_ub x y z) as (U1 & U2 & U3).
  destruct (min3_lb x y z) as (L1 & L2 & L3).
  pose proof (max3_cases x y z) as CM. pose proof (min3_cases x y z) as Cm.
  set (M := max3 x y z) in *. set (m := min3 x y z) in *.
  assert (Hd : 0 < M - m).
  { destruct (Qlt_le_dec m M); [lra|]. exfalso. apply Hne. lra. }
  set (d := M - m) in *.
  assert (Ed : q - p == d) by (unfold d; lra).
  assert (EdM : d == M - m) by reflexivity.
  clearbody d. clearbody M m.
  match goal with |- hue2rgb p q (?X / 6 + _) == _ /\ _ => set (H := X) end.
  assert (Eh : 6 * (H / 6) == H) by field.
  set (h := H / 6) in *. clearbody h.
  unfold H in Eh. clear H.
  destruct (Qeq_bool M x) eqn:Ex.
  - apply Qeq_bool_iff in Ex.
    destruct (ratio_facts (y - z) d Hd) as (R1 & R2 & R3 & F); try lra.
    set (rho := (y - z) / d) in *. clearbody rho.
    destruct (Qlt_le_dec y z) as [C|C]; (split; [|split]);
      hue2rgb_cases; finish_channel d.
  - apply Qeq_bool_neq in Ex. destruct (Qeq_bool M y) eqn:Ey.
    + apply Qeq_bool_iff in Ey.
      destruct (ratio_facts (z - x) d Hd) as (R1 & R2 & R3 & F); try lra.
      set (rho := (z - x) / d) in *. clearbody rho.
      (split; [|split]); hue2rgb_cases; finish_channel d.
    + apply Qeq_bool_neq in Ey. destruct (Qeq_bool M z) eqn:Ez.
      * apply Qeq_bool_iff in Ez.
        destruct (ratio_facts (x - y) d Hd) as (R1 & R2 & R3 & F); try lra.
        set (rho := (x - y) / d) in *. clearbody rho.
        (split; [|split]); hue2rgb_cases; finish_channel d.
      * apply Qeq_bool_neq in Ez. exfalso. lra.
Qed.

Lemma round_inject (n : Z) : round (inject_Z n) = n.
Proof.
  destruct (round_half_bounds (inject_Z n)) as [B1 B2].
  apply Z.le_antisymm.
  - apply Zle_of_Qlt. lra.
  - apply Zle_of_Qlt. lra.
Qed.

Lemma round_channel (c : Q) (n : Z) :
  c == inject_Z n / 255 -> round (c * 255) = n.
Proof.
  intros E. transitivity (round (inject_Z n)); [|apply round_inject].
  apply round_comp. rewrite E. field.
Qed.

Lemma rgb_hsl_rgb (r g b : Z) :
  (0 <= r <= 255)%Z -> (0 <= g <= 255)%Z -> (0 <= b <= 255)%Z ->
  let '(h, s, l) := rgbToHsl (inject_Z r) (inject_Z g) (inject_Z b) in
  hslToRgb h s l = (r, g, b).
Proof.
  intros Hr Hg Hb. unfold rgbToHsl.
  destruct (channel_unit r Hr) as [Hx0 Hx1].
  destruct (channel_unit g Hg) as [Hy0 Hy1].
  destruct (channel_unit b Hb) as [Hz0 Hz1].
  set (x := inject_Z r / 255) in *. set (y := inject_Z g / 255) in *.
  set (z := inject_Z b / 255) in *.
  destruct (max3_ub x y z) as (U1 & U2 & U3).
  destruct (min3_lb x y z) as (L1 & L2 & L3).
  assert (HM1 : max3 x y z <= 1)
    by (destruct (max3_cases x y z) as [E|[E|E]]; rewrite E; assumption).
  assert (Hm0 : 0 <= min3 x y z)
    by (destruct (min3_cases x y z) as [E|[E|E]]; rewrite E; assumption).
  destruct (Qeq_bool (max3 x y z) (min3 x y z)) eqn:E.
  - apply Qeq_bool_iff in E. unfold hslToRgb.
    set (l := (max3 x y z + min3 x y z) / 2).
    assert (El : l * 2 == max3 x y z + min3 x y z) by (unfold l; field).
    set (q := if Qlt_le_dec l (1 # 2) then l * (1 + 0) else l + 0 - l * 0).
    assert (Hq : q == l) by (unfold q; destruct (Qlt_le_dec l (1 # 2)); ring).
    assert (Hpq : 2 * l - q <= q) by lra.
    clearbody q. clearbody l.
    assert (Hall : forall t c, - (1) <= t -> t <= 2 -> c == l ->
                     hue2rgb (2 * l - q) q t == c).
    { intros t c T1 T2 Ec.
      destruct (hue2rgb_between (2 * l - q) q t Hpq T1 T2). lra. }
    f_equal; [f_equal|]; apply round_channel; fold x y z; apply Hall;
      qconsts; lra.
  - apply Qeq_bool_neq in E. unfold hslToRgb.
    assert (Hlt : min3 x y z < max3 x y z).
    { destruct (Qlt_le_dec (min3 x y z) (max3 x y z)); [assumption|].
      exfalso. apply E. lra. }
    destruct (hsl_pq (max3 x y z) (min3 x y z) Hm0 Hlt HM1) as [Hq Hp].
    cbv zeta in Hq, Hp.
    match type of Hq with ?Q == _ => set (q := Q) in * end.
    match type of Hp with ?P == _ => set (p := P) in * end.
    destruct (hue_roundtrip x y z p q E Hq Hp) as (C1 & C2 & C3).
    cbv zeta in C1, C2, C3.
    f_equal; [f_equal|]; apply round_channel; assumption.
Qed.

(** X7.  Converting byte channels to HSL and back returns the channels:
    [hslToHex] applied to the result of [rgbToHsl] prints the original
    colour, and reading the text back gives the three bytes. *)
Theorem rgbToHsl_hslToHex_roundtrip (r g b : Z) :
  (0 <= r <= 255)%Z -> (0 <= g <= 255)%Z -> (0 <= b <= 255)%Z ->
  let '(h, s, l) := rgbToHsl (inject_Z r) (inject_Z g) (inject_Z b) in
  hslToRgb h s l = (r, g, b) /\
  hslToHex h s l = "#" ++ toHex r ++ toHex g ++ toHex b /\
  hexToRgb (hslToHex h s l) = Some (r, g, b).
Proof.
  intros Hr Hg Hb. pose proof (rgb_hsl_rgb r g b Hr Hg Hb) as H.
  destruct (rgbToHsl (inject_Z r) (inject_Z g) (inject_Z b)) as [[h s] l].
  unfold hslToHex. rewrite H. split; [reflexivity|]. split; [reflexivity|].
  apply hexToRgb_printed; assumption.
Qed.

Lemma rgbToHsl_hslToHex_roundtrip_witness :
  let '(h, s, l) := rgbToHsl (inject_Z 18) (inject_Z 200) (inject_Z 77) in
  hslToRgb h s l = (18, 200, 77)%Z /\
  hslToHex h s l = "#" ++ toHex 18 ++ toHex 200 ++ toHex 77 /\
  hexToRgb (hslToHex h s l) = Some (18, 200, 77)%Z.
Proof.
  apply (rgbToHsl_hslToHex_roundtrip 18 200 77); lia.
Defined.

(** X8.  On byte channels [rgbToHsl] returns a hue in [0, 1), a
    saturation in [0, 1] and a lightness in [0, 1]; the saturation is 0
    exactly when the three channels are equal, and the hue is then 0. *)
Theorem rgbToHsl_unit_ranges (r g b : Z) :
  (0 <= r <= 255)%Z -> (0 <= g <= 255)%Z -> (0 <= b <= 255)%Z ->
  let '(h, s, l) := rgbToHsl (inject_Z r) (inject_Z g) (inject_Z b) in
  0 <= h /\ h < 1 /\ 0 <= s /\ s <= 1 /\ 0 <= l /\ l <= 1 /\
  (s == 0 <-> r = g /\ g = b) /\ (r = g /\ g = b -> h == 0).
Proof.
  intros Hr Hg Hb.
  pose proof (rgbToHsl_hue_range r g b Hr Hg Hb) as Hh.
  pose proof (rgbToHsl_range r g b Hr Hg Hb) as Hsl.
  revert Hh Hsl. unfold rgbToHsl.
  destruct (channel_unit r Hr) as [Hx0 Hx1].
  destruct (channel_unit g Hg) as [Hy0 Hy1].
  destruct (channel_unit b Hb) as [Hz0 Hz1].
  assert (Ex : inject_Z r / 255 * 255 == inject_Z r) by field.
  assert (Ey : inject_Z g / 255 * 255 == inject_Z g) by field.
  assert (Ez : inject_Z b / 255 * 255 == inject_Z b) by field.
  set (x := inject_Z r / 255) in *. set (y := inject_Z g / 255) in *.
  set (z := inject_Z b / 255) in *.
  destruct (max3_ub x y z) as (U1 & U2 & U3).
  destruct (min3_lb x y z) as (L1 & L2 & L3).
  assert (HM1 : max3 x y z <= 1)
    by (destruct (max3_cases x y z) as [E|[E|E]]; rewrite E; assumption).
  assert (Hm0 : 0 <= min3 x y z)
    by (destruct (min3_cases x y z) as [E|[E|E]]; rewrite E; assumption).
  pose proof (max3_cases x y z) as CM. pose proof (min3_cases x y z) as Cm.
  set (M := max3 x y z) in *. set (m := min3 x y z) in *.
  assert (Heq : (r = g /\ g = b) <-> M == m).
  { split.
    - intros [E1 E2]. rewrite <- E2, <- E1 in Ez. rewrite <- E1 in Ey. lra.
    - intros E. assert (E1 : inject_Z r == inject_Z g) by lra.
      assert (E2 : inject_Z g == inject_Z b) by lra.
      rewrite inject_Z_injective in E1, E2. auto. }
  destruct (Qeq_bool M m) eqn:E.
  - apply Qeq_bool_iff in E. intros [Hh0 Hh1] (Hs & Hl0 & Hl1).
    repeat (split; [assumption || lra|]). split.
    + split; [intros _; apply Heq; assumption|reflexivity].
    + reflexivity.
  - apply Qeq_bool_neq in E. intros [Hh0 Hh1] (Hs & Hl0 & Hl1).
    assert (Hd : m < M).
    { destruct (Qlt_le_dec m M); [assumption|]. exfalso. apply E. lra. }
    assert (Hs1 : (if Qlt_le_dec (1 # 2) ((M + m) / 2)
                   then (M - m) / (2 - M - m) else (M - m) / (M + m)) <= 1).
    { assert (El : (M + m) / 2 * 2 == M + m) by field.
      destruct (Qlt_le_dec (1 # 2) ((M + m) / 2));
        apply Qle_shift_div_r; lra. }
    assert (Hs0 : 0 < (if Qlt_le_dec (1 # 2) ((M + m) / 2)
                       then (M - m) / (2 - M - m) else (M - m) / (M + m))).
    { assert (El : (M + m) / 2 * 2 == M + m) by field.
      destruct (Qlt_le_dec (1 # 2) ((M + m) / 2));
        apply Qlt_shift_div_l; lra. }
    repeat (split; [assumption|]). split.
    + split; [intros E0; exfalso; lra|].
      intros H. exfalso. apply E, Heq, H.
    + intros H. exfalso. apply E, Heq, H.
Qed.

Lemma rgbToHsl_unit_ranges_witness :
  let '(h, s, l) := rgbToHsl (inject_Z 18) (inject_Z 200) (inject_Z 77) in
  0 <= h /\ h < 1 /\ 0 <= s /\ s <= 1 /\ 0 <= l /\ l <= 1 /\
  (s == 0 <-> 18%Z = 200%Z /\ 200%Z = 77%Z) /\
  (18%Z = 200%Z /\ 200%Z = 77%Z -> h == 0).
Proof.
  apply (rgbToHsl_unit_ranges 18 200 77); lia.
Defined.

Lemma toHex_two_digits (x : Z) :
  (0 <= x <= 255)%Z -> String.length (toHex x) = 2%nat.
Proof.
  intros H. pose proof (toHex_prints_back x H) as P. unfold hexPrintsBack in P.
  destruct (toHex x) as [|c1 [|c0 [|]]]; try discriminate. reflexivity.
Qed.

Lemma length_append (a b : string) :
  String.length (a ++ b) = (String.length a + String.length b)%nat.
Proof. induction a as [|c a IH]; simpl; [reflexivity|]. rewrite IH. reflexivity. Qed.

Lemma hsl_pq_unit (s l : Q) :
  0 <= s -> s <= 1 -> 0 <= l -> l <= 1 ->
  let q := if Qlt_le_dec l (1 # 2) then l * (1 + s) else l + s - l * s in
  let p := 2 * l - q in
  0 <= p /\ p <= q /\ q <= 1.
Proof.
  intros S0 S1 L0 L1 q p. unfold p, q.
  assert (A : 0 <= l * s) by (apply Qmult_le_0_compat; assumption).
  assert (B : 0 <= l * (1 - s)) by (apply Qmult_le_0_compat; lra).
  assert (C : 0 <= (1 - l) * (1 - s)) by (apply Qmult_le_0_compat; lra).
  assert (EB : l * (1 - s) == l - l * s) by ring.
  assert (EC : (1 - l) * (1 - s) == 1 - l - s + l * s) by ring.
  destruct (Qlt_le_dec l (1 # 2)).
  - assert (E : l * (1 + s) == l + l * s) by ring. lra.
  - assert (D : 0 <= (1 - l) * s) by (apply Qmult_le_0_compat; lra).
    assert (ED : (1 - l) * s == s - l * s) by ring. lra.
Qed.

(** X9.  For a hue, a saturation and a lightness within [0, 1],
    [hslToHex] prints channels within 0..255 as a text of seven
    characters, "#" and two hexadecimal digits per channel, from which
    the three channels are read back. *)
Theorem hslToHex_well_formed (h s l : Q) :
  0 <= h -> h <= 1 -> 0 <= s -> s <= 1 -> 0 <= l -> l <= 1 ->
  let '(r, g, b) := hslToRgb h s l in
  (0 <= r <= 255)%Z /\ (0 <= g <= 255)%Z /\ (0 <= b <= 255)%Z /\
  String.length (hslToHex h s l) = 7%nat /\
  hexToRgb (hslToHex h s l) = Some (r, g, b).
Proof.
  intros H0 H1 S0 S1 L0 L1.
  destruct (hsl_pq_unit s l S0 S1 L0 L1) as (P0 & Ppq & Q1). cbv zeta in *.
  assert (Hchan : forall t, - (1) <= t -> t <= 2 ->
            (0 <= round (hue2rgb
                      (2 * l - (if Qlt_le_dec l (1 # 2) then l * (1 + s)
                                else l + s - l * s))
                      (if Qlt_le_dec l (1 # 2) then l * (1 + s)
                       else l + s - l * s) t * 255) <= 255)%Z).
  { intros t T1 T2.
    destruct (hue2rgb_between _ _ t Ppq T1 T2) as [A B].
    rewrite <- (round_inject 0) at 1. rewrite <- (round_inject 255) at 3.
    split; apply round_mono; change (inject_Z 0) with 0;
      change (inject_Z 255) with 255; lra. }
  destruct (hslToRgb h s l) as [[r g] b] eqn:E.
  assert (Hex : hslToHex h s l = "#" ++ toHex r ++ toHex g ++ toHex b)
    by (unfold hslToHex; rewrite E; reflexivity).
  unfold hslToRgb in E. injection E as Er Eg Eb.
  assert (Hr : (0 <= r <= 255)%Z) by (rewrite <- Er; apply Hchan; qconsts; lra).
  assert (Hg : (0 <= g <= 255)%Z) by (rewrite <- Eg; apply Hchan; lra).
  assert (Hb : (0 <= b <= 255)%Z) by (rewrite <- Eb; apply Hchan; qconsts; lra).
  repeat (split; [assumption|]). rewrite Hex. split.
  - rewrite !length_append, !toHex_two_digits by assumption. reflexivity.
  - apply hexToRgb_printed; assumption.
Qed.

Lemma hslToHex_well_formed_witness :
  let '(r, g, b) := hslToRgb (1 # 3) (1 # 2) (1 # 4) in
  (0 <= r <= 255)%Z /\ (0 <= g <= 255)%Z /\ (0 <= b <= 255)%Z /\
  String.length (hslToHex (1 # 3) (1 # 2) (1 # 4)) = 7%nat /\
  hexToRgb (hslToHex (1 # 3) (1 # 2) (1 # 4)) = Some (r, g, b).
Proof.
  apply (hslToHex_well_formed (1 # 3) (1 # 2) (1 # 4)); lra.
Defined.

(** X10.  On byte channels the Morandi transform prints a light, muted
    colour: its three channels lie within 182..222, the largest exceeds
    the smallest by at least 3 and at most 20. *)
Theorem toMorandi_light_muted (r g b : Z) :
  (0 <= r <= 255)%Z -> (0 <= g <= 255)%Z -> (0 <= b <= 255)%Z ->
  exists R G B lo hi,
    toMorandi (inject_Z r) (inject_Z g) (inject_Z b) =
      "#" ++ toHex R ++ toHex G ++ toHex B /\
    (lo <= R <= hi)%Z /\ (lo <= G <= hi)%Z /\ (lo <= B <= hi)%Z /\
    (R = hi \/ G = hi \/ B = hi) /\ (R = lo \/ G = lo \/ B = lo) /\
    (182 <= lo)%Z /\ (hi <= 222)%Z /\ (3 <= hi - lo <= 20)%Z.
Proof.
  intros Hr Hg Hb. unfold toMorandi.
  pose proof (rgbToHsl_range r g b Hr Hg Hb) as H.
  pose proof (rgbToHsl_hue_range r g b Hr Hg Hb) as Hh.
  destruct (rgbToHsl (inject_Z r) (inject_Z g) (inject_Z b)) as [[h s] l].
  destruct H as (Hs & Hl & _). destruct Hh as [Hh0 Hh1].
  destruct (newS_range s Hs) as [S0 S1]. destruct (newL_range l Hl) as [L0 L1].
  set (S := newS s) in *. set (L := newL l) in *. clearbody S L.
  pose proof (hslToRgb_extremes h S L Hh0 Hh1) as X.
  unfold hslToHex. destruct (hslToRgb h S L) as [[R G] B].
  specialize (X ltac:(lra) ltac:(lra) ltac:(lra) ltac:(lra)). cbv zeta in X.
  set (T := S * (1 - L)).
  assert (T0 : (5 # 100) * (1 - L) <= T)
    by (unfold T; apply Qmult_le_compat_r; lra).
  assert (T1 : T <= (15 # 100) * (1 - L))
    by (unfold T; apply Qmult_le_compat_r; lra).
  assert (Eq : L + S - L * S == L + T) by (unfold T; ring).
  assert (Ep : 2 * L - (L + S - L * S) == L - T) by (unfold T; ring).
  clearbody T.
  pose proof (round_half_bounds ((L + S - L * S) * 255)) as [Bq1 Bq2].
  pose proof (round_half_bounds ((2 * L - (L + S - L * S)) * 255)) as [Bp1 Bp2].
  set (hi := round ((L + S - L * S) * 255)) in *.
  set (lo := round ((2 * L - (L + S - L * S)) * 255)) in *.
  rewrite Eq in Bq1, Bq2. rewrite Ep in Bp1, Bp2. clear Eq Ep.
  destruct X as (XR & XG & XB & Xhi & Xlo).
  exists R, G, B, lo, hi. split; [reflexivity|].
  repeat (split; [assumption|]).
  assert (I : forall a c : Z, inject_Z a < inject_Z c + 1 -> (a <= c)%Z)
    by exact Zle_of_Qlt.
  split; [apply I; change (inject_Z 182) with 182; lra|].
  split; [apply I; change (inject_Z 222) with 222; lra|].
  split.
  - apply Z.le_add_le_sub_r. apply I. rewrite inject_Z_plus.
    change (inject_Z 3) with 3. lra.
  - apply Z.le_sub_le_add_r. apply I. rewrite inject_Z_plus.
    change (inject_Z 20) with 20. lra.
Qed.

Lemma toMorandi_light_muted_witness :
  exists R G B lo hi,
    toMorandi (inject_Z 32) (inject_Z 64) (inject_Z 96) =
      "#" ++ toHex R ++ toHex G ++ toHex B /\
    (lo <= R <= hi)%Z /\ (lo <= G <= hi)%Z /\ (lo <= B <= hi)%Z /\
    (R = hi \/ G = hi \/ B = hi) /\ (R = lo \/ G = lo \/ B = lo) /\
    (182 <= lo)%Z /\ (hi <= 222)%Z /\ (3 <= hi - lo <= 20)%Z.
Proof.
  apply (toMorandi_light_muted 32 64 96); lia.
Defined.

End RoundTripFacts.

(** ** Further properties of the layout engine and the viewport scale *)

Module CanvasMoreFacts.

Import Canvas CanvasFacts Constants.
Import Lqa.
Local Open Scope Q_scope.

Section LayoutMore.

Variable Number : option string -> option Q.


End LayoutMore.


(** X12.  Every ratio offered by the sidebar gives a defined layout: for
    an image present, a positive natural size and settings within the
    slider ranges, each value of [RATIOS] yields a layout with positive
    export dimensions that are at least the card plus twice the padding. *)
Theorem layout_defined_for_offered_ratios
    (image : string) (s : Settings) (d : Size) :
  image <> "" -> 0 < width d -> 0 < height d -> inRange s ->
  In (aspectRatio s) (map snd RATIOS) ->
  exists l, layout Js.NumberDec (Some image) s d = Some l /\
    0 < exportW l /\ 0 < exportH l /\
    cardW l + padding s * 2 <= exportW l /\
    cardH l + padding s * 2 <= exportH l.
Proof.
  intros Hi Hw Hh (Hp & _ & Hin & _ & Hs & _) Hr.
  assert (Hw0 : ~ width d == 0) by (intro E; rewrite E in Hw; discriminate).
  pose proof (cardWOf_pos s d Hw Hin ltac:(lra)) as HcW.
  assert (HcH : 0 < cardHOf s d).
  { unfold cardHOf.
    assert (0 < height d * (scale s / 100)).
    { apply Qmult_lt_0_compat; [assumption|].
      apply Qlt_shift_div_l; [reflexivity|]. lra. }
    lra. }
  cbn in Hr. destruct Hr as [E|Hr].
  - symmetry in E. rewrite (layout_auto Js.NumberDec image s d Hi Hw0 E).
    eexists. split; [reflexivity|]. cbn [exportW exportH cardW cardH].
    repeat split; lra.
  - assert (Hfixed : exists rW rH,
              aspectRatio s <> "auto" /\
              Js.NumberDec (nth_error (Js.split "/" (aspectRatio s)) 0) = Some rW /\
              Js.NumberDec (nth_error (Js.split "/" (aspectRatio s)) 1) = Some rH /\
              0 < rW /\ 0 < rH).
    { destruct Hr as [E|[E|[E|[E|[]]]]]; rewrite <- E;
        eexists; eexists; (split; [discriminate|]);
        (split; [reflexivity|]); (split; [reflexivity|]); split; reflexivity. }
    destruct Hfixed as (rW & rH & Ha & HW & HH & HrW & HrH).
    destruct (layout_ratio_facts Js.NumberDec image s d rW rH Hi Hw0 Ha HW HH
                HrW HrH) as (l & El & EW & EH & _ & C1 & C2 & P1 & P2); [lra|].
    exists l. split; [exact El|]. rewrite EW, EH. repeat split; assumption.
Qed.

Lemma layout_defined_for_offered_ratios_witness :
  exists l,
    layout Js.NumberDec (Some "img") (mkSettings 64 16 100 "9/16")
           (mkSize 1000 500) = Some l /\
    0 < exportW l /\ 0 < exportH l /\
    cardW l + 64 * 2 <= exportW l /\ cardH l + 64 * 2 <= exportH l.
Proof.
  apply (layout_defined_for_offered_ratios "img"
           (mkSettings 64 16 100 "9/16") (mkSize 1000 500));
    try reflexivity; try discriminate.
  - unfold inRange. cbn. repeat split; discriminate.
  - cbn. tauto.
Defined.

(** X13.  When container and export sizes are all positive the preview
    scale is positive; when only the container height is zero the scale
    is 0, not the fallback; and while the layout is not ready (image absent
    or natural width 0) the scale is the fallback 0.1 for every container. *)
Theorem viewportScale_edges :
  (forall (c : Size) (l : Layout),
      0 < width c -> 0 < height c -> 0 < exportW l -> 0 < exportH l ->
      exists k, viewportScale c l = Some k /\ 0 < k) /\
  (forall (c : Size) (l : Layout),
      0 < width c -> height c == 0 -> 0 < exportW l -> 0 < exportH l ->
      exists k, viewportScale c l = Some k /\ k == 0) /\
  (forall (Number : option string -> option Q) (image : option string)
          (s : Settings) (d c : Size),
      Js.falsy image = true \/ width d == 0 ->
      exists l, layout Number image s d = Some l /\
                viewportScale c l = Some (1 # 10)).
Proof.
  assert (Hne : forall x : Q, 0 < x -> ~ x == 0).
  { intros x Hx E. rewrite E in Hx. discriminate. }
  split; [|split].
  - intros c l Hcw Hch HW HH.
    rewrite (viewportScale_min c l (Hne _ Hcw) (Hne _ HW) (Hne _ HH)).
    eexists. split; [reflexivity|].
    assert (0 < width c * FILL / exportW l).
    { apply Qlt_shift_div_l; [assumption|]. unfold FILL. lra. }
    assert (0 < height c * FILL / exportH l).
    { apply Qlt_shift_div_l; [assumption|]. unfold FILL. lra. }
    destruct (Q.min_spec (width c * FILL / exportW l)
                         (height c * FILL / exportH l)) as [[_ E]|[_ E]];
      rewrite E; assumption.
  - intros c l Hcw Hch HW HH.
    rewrite (viewportScale_min c l (Hne _ Hcw) (Hne _ HW) (Hne _ HH)).
    eexists. split; [reflexivity|].
    assert (0 < width c * FILL / exportW l).
    { apply Qlt_shift_div_l; [assumption|]. unfold FILL. lra. }
    assert (E0 : height c * FILL / exportH l == 0).
    { rewrite Hch. field. apply Hne. assumption. }
    destruct (Q.min_spec (width c * FILL / exportW l)
                         (height c * FILL / exportH l)) as [[Hl E]|[_ E]];
      rewrite E; [lra|assumption].
  - intros Number image s d c H. exists zeroLayout.
    split; [apply layout_not_ready; assumption|].
    apply viewportScale_guard. right. reflexivity.
Qed.

Lemma viewportScale_edges_witness :
  exists k, viewportScale (mkSize 800 0) (mkLayout 1160 660 1032 532) = Some k /\
            k == 0.
Proof.
  apply (proj1 (proj2 viewportScale_edges) (mkSize 800 0)
           (mkLayout 1160 660 1032 532)); reflexivity.
Defined.

End CanvasMoreFacts.

(** ** Drag to reposition *)

Module PanFacts.

Import Pan.
Import Lqa.
Local Open Scope Q_scope.

Lemma moves_idle (points : list (Q * Q)) (st : State) :
  isPanning st = false -> moves st points = st.
Proof.
  intros H. unfold moves. induction points as [|pt rest IH]; cbn [fold_left].
  - reflexivity.
  - unfold handleMouseMove at 2. rewrite H. cbn [negb]. exact IH.
Qed.

Lemma moves_panning (points : list (Q * Q)) (st : State) (last : Q * Q) :
  isPanning st = true ->
  moves st (points ++ [last]) =
  mkState true (dragStart st)
          (pX (dragStart st) + (fst last - x (dragStart st)))
          (pY (dragStart st) + (snd last - y (dragStart st))).
Proof.
  revert st. unfold moves. induction points as [|pt rest IH]; intros st H.
  - cbn. unfold handleMouseMove. rewrite H. reflexivity.
  - cbn [app fold_left]. rewrite IH.
    + unfold handleMouseMove. rewrite H. reflexivity.
    + unfold handleMouseMove. rewrite H. reflexivity.
Qed.

(** X14.  During a drag the pan offset depends only on the point where
    the button went down and on the latest pointer position: after a
    press at [(x0, y0)] and any run of moves ending at [(x1, y1)] the pan
    is the pan at the press plus [(x1 - x0, y1 - y0)], whatever the
    moves in between; releasing keeps it, and moves after the release or
    without a press change nothing; without an image a press is ignored. *)
Theorem drag_pan_follows_pointer :
  (forall (image : string) (st : State) (x0 y0 x1 y1 : Q)
          (between after : list (Q * Q)),
      image <> "" ->
      let dragged :=
        moves (handleMouseDown (Some image) st x0 y0) (between ++ [(x1, y1)]) in
      isPanning dragged = true /\
      panX dragged = panX st + (x1 - x0) /\
      panY dragged = panY st + (y1 - y0) /\
      moves (handleMouseUp dragged) after = handleMouseUp dragged /\
      panX (handleMouseUp dragged) = panX st + (x1 - x0) /\
      panY (handleMouseUp dragged) = panY st + (y1 - y0)) /\
  (forall (st : State) (points : list (Q * Q)),
      isPanning st = false -> moves st points = st) /\
  (forall (image : option string) (st : State) (x0 y0 : Q),
      Js.falsy image = true -> handleMouseDown image st x0 y0 = st).
Proof.
  split; [|split].
  - intros image st x0 y0 x1 y1 between after Hi dragged.
    assert (Ed : dragged =
                 mkState true (mkDragStart x0 y0 (panX st) (panY st))
                         (panX st + (x1 - x0)) (panY st + (y1 - y0))).
    { unfold dragged, handleMouseDown.
      rewrite (CanvasFacts.falsy_present image Hi).
      rewrite moves_panning by reflexivity. reflexivity. }
    rewrite Ed. cbn [isPanning panX panY handleMouseUp dragStart].
    repeat split. apply moves_idle. reflexivity.
  - intros st points H. apply moves_idle. assumption.
  - intros image st x0 y0 H. unfold handleMouseDown. rewrite H. reflexivity.
Qed.

Lemma drag_pan_follows_pointer_witness :
  let st := mkState false (mkDragStart 0 0 0 0) 5 7 in
  let dragged :=
    moves (handleMouseDown (Some "img") st 100 100) ([(130, 90)] ++ [(120, 140)]) in
  isPanning dragged = true /\
  panX dragged = 5 + (120 - 100) /\
  panY dragged = 7 + (140 - 100) /\
  moves (handleMouseUp dragged) [(0, 0)] = handleMouseUp dragged /\
  panX (handleMouseUp dragged) = 5 + (120 - 100) /\
  panY (handleMouseUp dragged) = 7 + (140 - 100).
Proof.
  exact (proj1 drag_pan_follows_pointer "img"
           (mkState false (mkDragStart 0 0 0 0) 5 7) 100 100 120 140
           [(130, 90)] [(0, 0)] ltac:(discriminate)).
Defined.

End PanFacts.

(** ** Light direction control *)

Module AnglePickerFacts.

Import AnglePicker.
Import Palette PaletteFacts.
Import Lqa.
Local Open Scope Q_scope.

Lemma Qtrunc_nonneg (q : Q) :
  0 <= q -> Z.quot (Qnum q) (Zpos (Qden q)) = Qfloor q.
Proof.
  intros H. destruct q as [n d]. unfold Qfloor. cbn [Qnum Qden].
  apply Z.quot_div_nonneg; [|lia].
  unfold Qle in H. cbn in H. lia.
Qed.

Lemma Qfloor_unique (q : Q) (n : Z) :
  inject_Z n <= q -> q < inject_Z n + 1 -> Qfloor q = n.
Proof.
  intros H1 H2.
  pose proof (Qfloor_le q) as F1. pose proof (Qlt_floor q) as F2.
  rewrite inject_Z_plus in F2. change (inject_Z 1) with 1 in F2.
  apply Z.le_antisymm; apply Zle_of_Qlt; lra.
Qed.

(** [x % 360] for [0 <= x < 720]. *)
Lemma jsRem_360 (x : Q) :
  0 <= x -> x < 720 ->
  jsRem x 360 == if Qlt_le_dec x 360 then x else x - 360.
Proof.
  intros H0 H1. unfold jsRem. cbv zeta.
  assert (Hq : 0 <= x / 360) by (apply Qle_shift_div_l; [reflexivity|lra]).
  rewrite (Qtrunc_nonneg _ Hq).
  destruct (Qlt_le_dec x 360) as [C|C].
  - rewrite (Qfloor_unique (x / 360) 0).
    + change (inject_Z 0) with 0. ring.
    + assumption.
    + change (inject_Z 0) with 0. apply Qlt_shift_div_r; [reflexivity|lra].
  - rewrite (Qfloor_unique (x / 360) 1).
    + change (inject_Z 1) with 1. ring.
    + change (inject_Z 1) with 1. apply Qle_shift_div_l; [reflexivity|lra].
    + change (inject_Z 1) with 1. apply Qlt_shift_div_r; [reflexivity|lra].
Qed.

Lemma round_nearest (q : Q) (n : Z) :
  inject_Z n - (1 # 2) <= q -> q < inject_Z n + (1 # 2) -> round q = n.
Proof.
  intros H1 H2. unfold round. apply Qfloor_unique; lra.
Qed.

Lemma round_shift (q : Q) (n : Z) : round (q + inject_Z n) = (round q + n)%Z.
Proof.
  destruct (round_half_bounds q) as [B1 B2].
  apply round_nearest; rewrite inject_Z_plus; lra.
Qed.

Lemma pickedAngle_value (a : Q) :
  - (180) <= a -> a <= 180 ->
  pickedAngle a = if Qlt_le_dec a 180 then (round a + 180)%Z else 0%Z.
Proof.
  intros H0 H1. unfold pickedAngle. cbv zeta.
  destruct (Qlt_le_dec a 0) as [Cn|Cp].
  - destruct (Qlt_le_dec a 180) as [_|C]; [|exfalso; lra].
    rewrite <- (round_shift a 180). apply round_comp.
    rewrite jsRem_360 by lra.
    destruct (Qlt_le_dec (a + 360 + 180) 360); [exfalso; lra|].
    change (inject_Z 180) with 180. ring.
  - destruct (Qlt_le_dec a 180) as [C|C].
    + rewrite <- (round_shift a 180). apply round_comp.
      rewrite jsRem_360 by lra.
      destruct (Qlt_le_dec (a + 180) 360); [|exfalso; lra].
      change (inject_Z 180) with 180. ring.
    + transitivity (round 0); [|reflexivity]. apply round_comp.
      rewrite jsRem_360 by lra.
      destruct (Qlt_le_dec (a + 180) 360); [exfalso; lra|]. lra.
Qed.

(** X15.  For a pointer direction between -180 and 180 degrees the
    picker reports an integer shadow angle from 0 to 360: the direction
    rounded to a degree plus 180, and 0 at exactly 180.  The value 360 is
    reported exactly for directions from 179.5 up to 180.  The light
    indicator drawn for the reported value points in the pointer's
    direction rounded to a degree. *)
Theorem pickedAngle_range_and_light (a : Q) :
  - (180) <= a -> a <= 180 ->
  (0 <= pickedAngle a <= 360)%Z /\
  (pickedAngle a = 360%Z <-> (1795 # 10) <= a /\ a < 180) /\
  lightAngle (pickedAngle a) = (round a mod 360)%Z.
Proof.
  intros H0 H1. rewrite (pickedAngle_value a H0 H1).
  destruct (round_half_bounds a) as [B1 B2].
  assert (Hr : (-180 <= round a <= 180)%Z).
  { split; apply Zle_of_Qlt.
    - change (inject_Z (-180)) with (-180). lra.
    - change (inject_Z 180) with 180. lra. }
  destruct (Qlt_le_dec a 180) as [C|C].
  - split; [lia|]. split.
    + split.
      * intros E. assert (E' : round a = 180%Z) by lia.
        rewrite E' in B1, B2. change (inject_Z 180) with 180 in B1, B2.
        split; lra.
      * intros [A1 A2]. assert (round a = 180%Z); [|lia].
        apply round_nearest; change (inject_Z 180) with 180; lra.
    + unfold lightAngle.
      replace (round a + 180 + 180)%Z with (round a + 360)%Z by lia.
      destruct (Z.lt_ge_cases (round a) 0) as [Hn|Hp].
      * rewrite Z.rem_small by lia.
        rewrite <- (Z.mod_add (round a) 1 360) by lia.
        rewrite Z.mod_small by lia. lia.
      * rewrite Z.rem_mod_nonneg by lia.
        rewrite <- (Z.mod_add (round a) 1 360) by lia. reflexivity.
  - split; [lia|]. split.
    + split; [discriminate|]. intros [_ A2]. exfalso. lra.
    + assert (E : round a = 180%Z).
      { apply round_nearest; change (inject_Z 180) with 180; lra. }
      rewrite E. reflexivity.
Qed.

Lemma pickedAngle_range_and_light_witness :
  (0 <= pickedAngle (1797 # 10) <= 360)%Z /\
  (pickedAngle (1797 # 10) = 360%Z <->
   (1795 # 10) <= (1797 # 10) /\ (1797 # 10) < 180) /\
  lightAngle (pickedAngle (1797 # 10)) = (round (1797 # 10) mod 360)%Z.
Proof.
  apply (pickedAngle_range_and_light (1797 # 10)); discriminate.
Defined.

Example pickedAngle_reaches_360 : pickedAngle (1797 # 10) = 360%Z.
Proof. reflexivity. Qed.

Example pickedAngle_up : pickedAngle (-90) = 90%Z.
Proof. reflexivity. Qed.

End AnglePickerFacts.

(** ** From the extracted palette to the mesh *)

Module AppFacts.

Import Palette Mesh App.
Import PaletteFacts MeshFacts.

(** X16.  The five blobs of the mesh always get five colours: for a
    sampled image they are the five palette colours in some order; while
    no image is set, or when loading failed or no 2d context was
    available, they are the five colours of the fallback palette of the
    mesh in some order. *)
Theorem meshColors_five (seed : Z) :
  (forall imageData : list Pixel,
      exists c out,
        getImageColors (Sampled imageData) = Some c /\
        meshColors (Some (Sampled imageData)) seed = Ok out /\
        Permutation out (palette c) /\ List.length out = 5%nat) /\
  (forall src : option ImageLoad,
      src = None \/ src = Some LoadError \/ src = Some NoContext ->
      exists out,
        meshColors src seed = Ok out /\
        Permutation out fallbackPalette /\ List.length out = 5%nat).
Proof.
  split.
  - intros imageData.
    pose proof (getImageColors_sampled imageData) as E. cbv zeta in E.
    set (picked := pickDistinct (sortedColors (quantize imageData))) in *.
    pose proof (pickDistinct_length (sortedColors (quantize imageData))) as Hle.
    fold picked in Hle.
    set (filled := (picked ++ firstn (5 - List.length picked) defaultMorandi)%list) in *.
    assert (Hlen : List.length filled = 5%nat).
    { unfold filled. rewrite length_app, length_firstn. simpl List.length. lia. }
    destruct (shuffled_perm filled seed) as (colors & out & Ep & Es & P & L).
    rewrite padded_spec, Hlen in Ep. cbn [Nat.leb Nat.sub repeat] in Ep.
    rewrite app_nil_r in Ep. apply Ok_inj in Ep. subst colors.
    eexists. exists out. split; [exact E|].
    unfold meshColors, paletteState. rewrite E. cbn [palette].
    split; [exact Es|]. split; [exact P|]. rewrite L. exact Hlen.
  - intros src Hsrc.
    destruct (shuffled_perm [] seed) as (colors & out & Ep & Es & P & L).
    rewrite padded_spec in Ep. cbn [List.length Nat.leb] in Ep.
    apply Ok_inj in Ep. subst colors.
    exists out.
    assert (Em : meshColors src seed = shuffled [] seed)
      by (destruct Hsrc as [->|[->| ->]]; reflexivity).
    rewrite Em. split; [exact Es|]. split; [exact P|]. rewrite L. reflexivity.
Qed.

Lemma meshColors_five_witness :
  exists out,
    meshColors (Some LoadError) 7 = Ok out /\
    Permutation out fallbackPalette /\ List.length out = 5%nat.
Proof.
  apply (proj2 (meshColors_five 7) (Some LoadError)). right. left. reflexivity.
Defined.

End AppFacts.

(** ** Bounds of the shadow descriptor *)

Module ShadowMoreFacts.

Import Shadow ShadowFacts.
Import Lra.
Local Open Scope R_scope.

Lemma round_between (x : R) (a b : Z) :
  IZR a <= x -> x <= IZR b -> (a <= round x <= b)%Z.
Proof.
  intros H1 H2. destruct (round_within_half x) as [B1 B2].
  split.
  - apply Z.lt_succ_r. apply lt_IZR. rewrite succ_IZR. lra.
  - apply Z.lt_succ_r. apply lt_IZR. rewrite succ_IZR. lra.
Qed.

(** X17.  For an intensity within [0, 100] and any angle, both shadow
    offsets are integers of magnitude at most 60, each of magnitude at
    most 0.6 times the intensity plus one half; the blur lies in
    [0, 120] and the spread in [-10, 0]; at intensity 0 both offsets, the
    blur and the spread are 0 and the alpha is 0.15. *)
Theorem shadowStyle_bounds (shadow shadowAngle : R) :
  0 <= shadow <= 100 ->
  let d := shadowStyle shadow shadowAngle in
  (-60 <= offsetX d <= 60)%Z /\ (-60 <= offsetY d <= 60)%Z /\
  Rabs (IZR (offsetX d)) <= shadow * 0.6 + / 2 /\
  Rabs (IZR (offsetY d)) <= shadow * 0.6 + / 2 /\
  0 <= blurRadius d <= 120 /\ -10 <= spreadRadius d <= 0 /\
  (shadow = 0 ->
   offsetX d = 0%Z /\ offsetY d = 0%Z /\ blurRadius d = 0 /\
   spreadRadius d = 0 /\ alpha d = 0.15).
Proof.
  intros Hs d. unfold d, shadowStyle.
  cbn [offsetX offsetY blurRadius spreadRadius alpha]. unfold dist.
  pose proof (COS_bound (angleRad shadowAngle)) as [C1 C2].
  pose proof (SIN_bound (angleRad shadowAngle)) as [S1 S2].
  set (c := cos (angleRad shadowAngle)) in *.
  set (s := sin (angleRad shadowAngle)) in *.
  clearbody c s. clear d.
  assert (Hc : - (shadow * 0.6) <= c * (shadow * 0.6) <= shadow * 0.6).
  { split; nra. }
  assert (Hsn : - (shadow * 0.6) <= s * (shadow * 0.6) <= shadow * 0.6).
  { split; nra. }
  destruct (round_within_half (c * (shadow * 0.6))) as [X1 X2].
  destruct (round_within_half (s * (shadow * 0.6))) as [Y1 Y2].
  split; [apply round_between; lra|]. split; [apply round_between; lra|].
  split; [apply Rabs_le; lra|]. split; [apply Rabs_le; lra|].
  split; [lra|]. split; [lra|].
  intros ->. replace (c * (0 * 0.6)) with 0 by lra.
  replace (s * (0 * 0.6)) with 0 by lra.
  assert (E0 : round 0 = 0%Z) by (apply round_unique; lra).
  rewrite E0. repeat split; lra.
Qed.

Lemma shadowStyle_bounds_witness :
  let d := shadowStyle 40 135 in
  (-60 <= offsetX d <= 60)%Z /\ (-60 <= offsetY d <= 60)%Z /\
  Rabs (IZR (offsetX d)) <= 40 * 0.6 + / 2 /\
  Rabs (IZR (offsetY d)) <= 40 * 0.6 + / 2 /\
  0 <= blurRadius d <= 120 /\ -10 <= spreadRadius d <= 0 /\
  (40 = 0 ->
   offsetX d = 0%Z /\ offsetY d = 0%Z /\ blurRadius d = 0 /\
   spreadRadius d = 0 /\ alpha d = 0.15).
Proof.
  apply (shadowStyle_bounds 40 135). lra.
Defined.

End ShadowMoreFacts.
